(** * Minimongo.Sorter: sort-specification compiler and sort-key extractor

    A shallow embedding of [Minimongo.Sorter] (minimongo's sorter.js) and
    the properties of its comparators.

    Conventions of the embedding.
    - JavaScript values are the inductive type [jsval].  Numbers are
      integers ([Z]); objects are association lists in the order in which
      the VM enumerates their keys.
    - A [throw] is the [throw] constructor of the [result] monad; every
      [Error] message of the source has its own constructor of [error], and
      [TypeError] stands for the errors raised by the JavaScript runtime
      itself (property access on [null], call of a non-function).
    - The collaborators that live outside sorter.js ([makeLookupFunction],
      [expandArraysInBranches], [LocalCollection._f._cmp]) are the fields
      of the class [Env]. *)

From Stdlib Require Import List String Ascii ZArith Lia Bool Arith PeanoNat.
From Stdlib Require Import DecimalString.
Import ListNotations.
Local Open Scope string_scope.
Local Open Scope Z_scope.
Local Open Scope list_scope.

Set Implicit Arguments.
Set Warnings "-register-all".

(** ** JavaScript values *)

Inductive jsval : Type :=
| JUndefined
| JNull
| JBool (b : bool)
| JNum (z : Z)
| JStr (s : string)
| JArr (elems : list jsval)
| JObj (props : list (string * jsval)).

(** An object used as a map, keys in enumeration order. *)
Abbreviation jsobj V := (list (string * V)) (only parsing).

Module Obj.
Section Ops.
Context {V : Type}.

Fixpoint get (o : jsobj V) (k : string) : option V :=
  match o with
  | [] => None
  | (k', v) :: o' => if String.eqb k' k then Some v else get o' k
  end.

(** [_.has(o, k)] *)
Definition has (o : jsobj V) (k : string) : bool :=
  match get o k with Some _ => true | None => false end.

(** [o[k] = v]: an existing key keeps its place, a new one goes last. *)
Fixpoint set (o : jsobj V) (k : string) (v : V) : jsobj V :=
  match o with
  | [] => [(k, v)]
  | (k', v') :: o' =>
      if String.eqb k' k then (k', v) :: o' else (k', v') :: set o' k v
  end.

Definition keys (o : jsobj V) : list string := map fst o.

(** [_.size(o)] *)
Definition size (o : jsobj V) : nat := List.length o.
End Ops.
End Obj.

(** [typeof v] *)
Definition typeof (v : jsval) : string :=
  match v with
  | JUndefined => "undefined"
  | JNull => "object"
  | JBool _ => "boolean"
  | JNum _ => "number"
  | JStr _ => "string"
  | JArr _ => "object"
  | JObj _ => "object"
  end.

(** [v instanceof Array] *)
Definition instanceofArray (v : jsval) : bool :=
  match v with JArr _ => true | _ => false end.

(** [spec[0], ..., spec[spec.length - 1]] of an array. *)
Definition arrayElements (v : jsval) : list jsval :=
  match v with JArr elems => elems | _ => [] end.

(** [!v] is [negb (truthy v)]. *)
Definition truthy (v : jsval) : bool :=
  match v with
  | JUndefined | JNull => false
  | JBool b => b
  | JNum z => negb (z =? 0)
  | JStr s => negb (String.eqb s EmptyString)
  | JArr _ | JObj _ => true
  end.

(** [v === "s"] for a string literal. *)
Definition strictEqStr (v : jsval) (s : string) : bool :=
  match v with JStr s' => String.eqb s' s | _ => false end.

(** ** Errors and the result monad *)

Inductive error : Type :=
| SortKeysMustBeNonEmpty              (* "sort keys must be non-empty" *)
| UnsupportedSortKey (path : string)  (* "unsupported sort key: " + path *)
| BadSortSpecification (spec : jsval) (* "Bad sort specification: " + ... *)
| MissingDistanceFor (id : jsval)     (* "Missing distance for " + id *)
| FoundNoKeysInDoc          (* "sort selector found no keys in doc?" *)
| NoSpec                    (* "can't generate keys without a spec" *)
| MultipleBranchesNoArray   (* "multiple branches but no array used?" *)
| DuplicatePath (path : string)       (* "duplicate path: " + path *)
| CannotIndexParallelArrays           (* "cannot index parallel arrays" *)
| CannotIndexParallelArraysBang       (* "cannot index parallel arrays!" *)
| NoValueInSoleKeyCase                (* "no value in sole key case?" *)
| MissingPathError                    (* "missing path?" *)
| KeyHasWrongLength                   (* "Key has wrong length" *)
| TypeError.                          (* raised by the runtime *)

Inductive result (A : Type) : Type :=
| ret (a : A)
| throw (e : error).
Arguments ret {A} a.
Arguments throw {A} e.

Definition bind {A B : Type} (m : result A) (k : A -> result B) : result B :=
  match m with
  | ret a => k a
  | throw e => throw e
  end.

Notation "x <- m ;; k" := (bind m (fun x => k))
  (at level 61, m at next level, right associativity).
Notation "' pat <- m ;; k" := (bind m (fun x => match x with pat => k end))
  (at level 61, pat pattern, m at next level, right associativity).

(** A loop whose body may throw: [_.each] or [for] with a mutable state. *)
Fixpoint foldM {A S : Type} (f : S -> A -> result S) (l : list A) (s : S)
  : result S :=
  match l with
  | [] => ret s
  | x :: l' => s' <- f s x ;; foldM f l' s'
  end.

(** [_.map] with a body that may throw. *)
Fixpoint mapM {A B : Type} (f : A -> result B) (l : list A)
  : result (list B) :=
  match l with
  | [] => ret []
  | x :: l' => y <- f x ;; ys <- mapM f l' ;; ret (y :: ys)
  end.

(** The kinds of failure the specification names. *)
Definition InvalidSpec (e : error) : Prop :=
  match e with
  | SortKeysMustBeNonEmpty | UnsupportedSortKey _ | BadSortSpecification _ =>
      True
  | _ => False
  end.

Definition ParallelArrayMismatch (e : error) : Prop :=
  match e with
  | CannotIndexParallelArrays | CannotIndexParallelArraysBang => True
  | _ => False
  end.

(** ** Branches and the external collaborators *)

Record branch : Type := Branch {
  value : jsval;
  arrayIndices : option (list nat)
}.

(** A sort key: one value per sort-spec part. *)
Definition key : Type := list jsval.

Class Env : Type := {
  (** [makeLookupFunction(path)], applied to a document *)
  makeLookupFunction : string -> jsval -> list branch;
  (** [expandArraysInBranches(branches, skipTheArrays)] *)
  expandArraysInBranches : list branch -> bool -> list branch;
  (** [LocalCollection._f._cmp] *)
  _cmp : jsval -> jsval -> Z;
  (** the runtime's ToNumber conversion of a value that is not a number;
      [None] is NaN *)
  toNumber : jsval -> option Z
}.

(** [value >= 0]: false when the operand converts to NaN. *)
Definition geZero `{Env} (v : jsval) : bool :=
  match v with
  | JNum z => 0 <=? z
  | _ => match toNumber v with Some z => 0 <=? z | None => false end
  end.

(** The precomputed [$near] distances: [distances.has(id)] is whether the
    lookup is [Some], [distances.get(id)] is its content. *)
Definition distanceMap : Type := jsval -> option Z.

Record options : Type := Options {
  distances : option distanceMap
}.

(** [doc._id] *)
Definition _id (doc : jsval) : result jsval :=
  match doc with
  | JUndefined | JNull => throw TypeError
  | JObj props =>
      ret (match Obj.get props "_id" with Some v => v | None => JUndefined end)
  | _ => ret JUndefined
  end.

(** [v[i]] for a numeric index. *)
Definition string_of_nat (n : nat) : string :=
  NilEmpty.string_of_uint (Nat.to_uint n).

Definition getIndex (v : jsval) (i : nat) : result jsval :=
  match v with
  | JUndefined | JNull => throw TypeError
  | JArr l => ret (nth i l JUndefined)
  | JObj props =>
      ret (match Obj.get props (string_of_nat i) with
           | Some x => x
           | None => JUndefined
           end)
  | JStr s =>
      ret (match String.get i s with
           | Some c => JStr (String c EmptyString)
           | None => JUndefined
           end)
  | JBool _ | JNum _ => ret JUndefined
  end.

(** [_.each(obj, function (value, key) ...)] over a non-array: the own
    enumerable properties in order; nothing at all for [null]. *)
Definition _each_entries (obj : jsval) : list (string * jsval) :=
  match obj with
  | JObj props => props
  | _ => []
  end.

(** [array.join(',')] *)
Fixpoint join (sep : string) (l : list string) : string :=
  match l with
  | [] => EmptyString
  | [x] => x
  | x :: l' => (x ++ sep ++ join sep l')%string
  end.

(** ** The sorter *)

Record specPart : Type := SpecPart {
  path : string;
  ascending : bool
}.

(** The compiled sorter.  Its [lookup] functions are
    [makeLookupFunction (path part)] and its [_keyComparator] is composed
    from the parts when the constructor ends; the parts are never mutated
    afterwards, so both are functions of [_sortSpecParts]. *)
Record sorter : Type := MkSorter {
  _sortSpecParts : list specPart
}.

(** [path.charAt(0) === '$'] *)
Definition startsWithDollar (s : string) : bool :=
  match s with
  | String c _ => Ascii.eqb c "$"%char
  | EmptyString => false
  end.

(** [addSpecPart(path, ascending)]; [parts] is [self._sortSpecParts].
    A truthy [path] that is not a string has no [charAt] method. *)
Definition addSpecPart (parts : list specPart) (p : jsval) (asc : bool)
  : result (list specPart) :=
  if negb (truthy p) then throw SortKeysMustBeNonEmpty
  else match p with
       | JStr s =>
           if startsWithDollar s then throw (UnsupportedSortKey s)
           else ret (parts ++ [SpecPart s asc])
       | _ => throw TypeError
       end.

Section WithEnv.
Context `{E : Env}.

(** The body of the [for] loop over an array spec. *)
Definition arraySpecStep (parts : list specPart) (elem : jsval)
  : result (list specPart) :=
  if String.eqb (typeof elem) "string" then addSpecPart parts elem true
  else
    p <- getIndex elem 0 ;;
    d <- getIndex elem 1 ;;
    addSpecPart parts p (negb (strictEqStr d "desc")).

(** The body of [_.each(spec, function (value, key) ...)]. *)
Definition objectSpecStep (parts : list specPart) (kv : string * jsval)
  : result (list specPart) :=
  let '(k, v) := kv in addSpecPart parts (JStr k) (geZero v).

(** [new Minimongo.Sorter(spec)].  The [affectedByModifier] block exists
    on the server only and does not touch the parts. *)
Definition Sorter (spec : jsval) : result sorter :=
  parts <-
    (if instanceofArray spec
     then foldM arraySpecStep (arrayElements spec) []
     else if String.eqb (typeof spec) "object"
          then foldM objectSpecStep (_each_entries spec) []
          else throw (BadSortSpecification spec)) ;;
  ret (MkSorter parts).

(** [composeComparators(comparatorArray)] *)
Fixpoint composeComparators {A : Type}
    (comparatorArray : list (A -> A -> result Z)) (a b : A) : result Z :=
  match comparatorArray with
  | [] => ret 0
  | c :: rest =>
      compare <- c a b ;;
      if negb (compare =? 0) then ret compare
      else composeComparators rest a b
  end.

(** [self._keyFieldComparator(i)].  [self._sortSpecParts[i]] is read when
    the comparator is built; the constructor builds one for every index
    of [_sortSpecParts], so the part is always there. *)
Definition _keyFieldComparator (self : sorter) (i : nat)
  : key -> key -> result Z :=
  fun key1 key2 =>
    match nth_error (_sortSpecParts self) i with
    | None => throw TypeError
    | Some spec =>
        let invert := negb (ascending spec) in
        let compare := _cmp (nth i key1 JUndefined) (nth i key2 JUndefined) in
        ret (if invert then - compare else compare)
    end.

(** [self._keyComparator], as the constructor builds it. *)
Definition _keyComparator (self : sorter) : key -> key -> result Z :=
  composeComparators
    (map (fun i => _keyFieldComparator self i)
         (seq 0 (List.length (_sortSpecParts self)))).

Definition _compareKeys (self : sorter) (key1 key2 : key) : result Z :=
  if negb (List.length key1 =? List.length (_sortSpecParts self))%nat
     || negb (List.length key2 =? List.length (_sortSpecParts self))%nat
  then throw KeyHasWrongLength
  else _keyComparator self key1 key2.

Definition _getPaths (self : sorter) : list string :=
  map path (_sortSpecParts self).

(** [indices.join(',') + ','] *)
Definition pathFromIndices (indices : list nat) : string :=
  (join "," (map string_of_nat indices) ++ ",")%string.

(** The branches of one part: the expanded lookup, or one [null] value
    when the lookup finds nothing. *)
Definition branchesOf (spec : specPart) (doc : jsval) : list branch :=
  let branches :=
    expandArraysInBranches (makeLookupFunction (path spec) doc) true in
  if (List.length branches =? 0)%nat then [Branch JNull None] else branches.

(** The body of [_.each(branches, function (branch) ...)].  The state is
    [(usedPaths, valuesByIndexAndPath[whichField])]; [nbranches] is
    [branches.length]. *)
Definition branchStep (nbranches : nat) (knownPaths : option (jsobj bool))
    (st : bool * jsobj jsval) (b : branch) : result (bool * jsobj jsval) :=
  let '(usedPaths, values) := st in
  match arrayIndices b with
  | None =>
      if (1 <? nbranches)%nat then throw MultipleBranchesNoArray
      else ret (usedPaths, Obj.set values EmptyString (value b))
  | Some indices =>
      let path := pathFromIndices indices in
      if Obj.has values path then throw (DuplicatePath path)
      else
        let values := Obj.set values path (value b) in
        match knownPaths with
        | Some known =>
            if negb (Obj.has known path)
            then throw CannotIndexParallelArrays
            else ret (true, values)
        | None => ret (true, values)
        end
  end.

(** The body of [_.each(self._sortSpecParts, function (spec, whichField)
    ...)], from the point where [branches] is known.  The state is
    [(valuesByIndexAndPath, knownPaths)]; the parts come in order, so
    [valuesByIndexAndPath[whichField] = ...] extends the array by one. *)
Definition processBranches
    (st : list (jsobj jsval) * option (jsobj bool)) (branches : list branch)
  : result (list (jsobj jsval) * option (jsobj bool)) :=
  let '(valuesByIndexAndPath, knownPaths) := st in
  '(usedPaths, values) <-
     foldM (branchStep (List.length branches) knownPaths) branches
           (false, []) ;;
  match knownPaths with
  | Some known =>
      if negb (Obj.has values EmptyString)
         && negb (Obj.size known =? Obj.size values)%nat
      then throw CannotIndexParallelArraysBang
      else ret (valuesByIndexAndPath ++ [values], knownPaths)
  | None =>
      if usedPaths
      then ret (valuesByIndexAndPath ++ [values],
                Some (map (fun kv => (fst kv, true)) values))
      else ret (valuesByIndexAndPath ++ [values], None)
  end.

Definition partStep (doc : jsval)
    (st : list (jsobj jsval) * option (jsobj bool)) (spec : specPart)
  : result (list (jsobj jsval) * option (jsobj bool)) :=
  processBranches st (branchesOf spec doc).

(** The first loop of [_generateKeysFromDoc]. *)
Definition valuesAndPaths (parts : list specPart) (doc : jsval)
  : result (list (jsobj jsval) * option (jsobj bool)) :=
  foldM (partStep doc) parts ([], None).

Definition getOr (o : jsobj jsval) (k : string) : jsval :=
  match Obj.get o k with Some v => v | None => JUndefined end.

(** The key of the "no use of arrays" case. *)
Definition soleKey (valuesByIndexAndPath : list (jsobj jsval)) : result key :=
  mapM (fun values =>
          if negb (Obj.has values EmptyString) then throw NoValueInSoleKeyCase
          else ret (getOr values EmptyString))
       valuesByIndexAndPath.

(** The key found along [path]. *)
Definition keyAt (valuesByIndexAndPath : list (jsobj jsval)) (path : string)
  : result key :=
  mapM (fun values =>
          if Obj.has values EmptyString then ret (getOr values EmptyString)
          else if negb (Obj.has values path) then throw MissingPathError
          else ret (getOr values path))
       valuesByIndexAndPath.

(** [self._generateKeysFromDoc(doc, cb)].  The callback works on a state
    of type [S] (the variables it closes over) and may throw. *)
Definition _generateKeysFromDoc {S : Type} (self : sorter) (doc : jsval)
    (cb : key -> S -> result S) (s : S) : result S :=
  if (List.length (_sortSpecParts self) =? 0)%nat then throw NoSpec
  else
    '(valuesByIndexAndPath, knownPaths) <-
       valuesAndPaths (_sortSpecParts self) doc ;;
    match knownPaths with
    | None =>
        k <- soleKey valuesByIndexAndPath ;;
        cb k s
    | Some known =>
        foldM (fun s kv => k <- keyAt valuesByIndexAndPath (fst kv) ;; cb k s)
              known s
    end.

(** The callback of [_getMinKeyFromDoc]; its state is [minKey]. *)
Definition minKeyStep (self : sorter) (k : key) (minKey : option key)
  : result (option key) :=
  match minKey with
  | None => ret (Some k)
  | Some m =>
      c <- _compareKeys self k m ;;
      if c <? 0 then ret (Some k) else ret (Some m)
  end.

Definition _getMinKeyFromDoc (self : sorter) (doc : jsval) : result key :=
  minKey <- _generateKeysFromDoc self doc (minKeyStep self) None ;;
  match minKey with
  | None => throw FoundNoKeysInDoc
  | Some k => ret k
  end.

(** [!self._sortSpecParts.length] holds when the length is 0. *)
Definition _getBaseComparator (self : sorter) : jsval -> jsval -> result Z :=
  if (List.length (_sortSpecParts self) =? 0)%nat
  then fun doc1 doc2 => ret 0
  else fun doc1 doc2 =>
         key1 <- _getMinKeyFromDoc self doc1 ;;
         key2 <- _getMinKeyFromDoc self doc2 ;;
         _compareKeys self key1 key2.

(** The [$near] tie-breaker of [getComparator]. *)
Definition distanceComparator (distances : distanceMap) (a b : jsval)
  : result Z :=
  ida <- _id a ;;
  match distances ida with
  | None => throw (MissingDistanceFor ida)
  | Some da =>
      idb <- _id b ;;
      match distances idb with
      | None => throw (MissingDistanceFor idb)
      | Some db => ret (da - db)
      end
  end.

Definition getComparator (self : sorter) (opts : option options)
  : jsval -> jsval -> result Z :=
  match opts with
  | None => _getBaseComparator self
  | Some o =>
      match distances o with
      | None => _getBaseComparator self
      | Some distances =>
          composeComparators
            [_getBaseComparator self; distanceComparator distances]
      end
  end.

(** The candidate keys of a document, in the order in which
    [_generateKeysFromDoc] hands them to its callback. *)
Definition keysOf (self : sorter) (doc : jsval) : result (list key) :=
  _generateKeysFromDoc self doc (fun k acc => ret (acc ++ [k])) [].

End WithEnv.

Arguments branchStep : simpl never.
Arguments processBranches : simpl never.
Arguments partStep : simpl never.
Arguments branchesOf : simpl never.

(** ** An instance of the collaborators

    Used to run the sorter on concrete documents. *)

Module SpecEnv.

Fixpoint splitOn (c : ascii) (s : string) : list string :=
  match s with
  | EmptyString => [EmptyString]
  | String a s' =>
      if Ascii.eqb a c then EmptyString :: splitOn c s'
      else match splitOn c s' with
           | [] => [String a EmptyString]
           | h :: t => String a h :: t
           end
  end.

Definition extend (idx : option (list nat)) (i : nat) : option (list nat) :=
  Some (match idx with Some l => l | None => [] end ++ [i]).

(** Modelled from the spec: Path Lookup (the path-traversal library is
    not part of sorter.js).  It "resolves a dotted field path against a
    document, returning every reachable value, expanding arrays
    encountered along the path", and reports "the exact sequence of
    indices chosen whenever a branch's path traverses at least one
    array".  A path that leads nowhere yields no branch. *)
Fixpoint lookupIn (v : jsval) (parts : list string)
    (idx : option (list nat)) {struct v} : list branch :=
  match parts with
  | [] => [Branch v idx]
  | p :: rest =>
      match v with
      | JObj props =>
          (fix find (props : list (string * jsval)) : list branch :=
             match props with
             | [] => []
             | (k, v') :: props' =>
                 if String.eqb k p then lookupIn v' rest idx
                 else find props'
             end) props
      | JArr elems =>
          (fix each (elems : list jsval) (i : nat) : list branch :=
             match elems with
             | [] => []
             | e :: elems' =>
                 lookupIn e parts (extend idx i) ++ each elems' (Datatypes.S i)
             end) elems 0%nat
      | _ => []
      end
  end.

Definition lookup (path : string) (doc : jsval) : list branch :=
  lookupIn doc (splitOn "."%char path) None.

(** Modelled from the spec: the expansion of a terminal array, whose
    "elements become separate branches, never the array object itself"
    when the arrays are skipped. *)
Definition expand (branches : list branch) (skipTheArrays : bool)
  : list branch :=
  flat_map
    (fun b =>
       match value b with
       | JArr elems =>
           (if skipTheArrays then [] else [b])
           ++ map (fun ie => Branch (snd ie) (extend (arrayIndices b) (fst ie)))
                  (combine (seq 0 (List.length elems)) elems)
       | _ => [b]
       end)
    branches.

Definition rank (v : jsval) : Z :=
  match v with
  | JUndefined | JNull => 0
  | JNum _ => 1
  | JStr _ => 2
  | JObj _ => 3
  | JArr _ => 4
  | JBool _ => 5
  end.

Definition weight (v : jsval) : Z :=
  match v with
  | JNum z => z
  | JBool true => 1
  | _ => 0
  end.

(** Modelled from the spec: Value Comparator, "a total, deterministic
    cross-type ordering".  Values of different types are ordered by type
    precedence, numbers by value and booleans false before true; the
    order inside the other types is not modelled (they compare equal). *)
Definition cmp (a b : jsval) : Z :=
  if rank a =? rank b then weight a - weight b else rank a - rank b.

(** ToNumber on the values that are not numbers: [null] and [false] are
    0, [true] is 1; strings are not parsed. *)
Definition number (v : jsval) : option Z :=
  match v with
  | JNum z => Some z
  | JNull | JBool false => Some 0
  | JBool true => Some 1
  | _ => None
  end.

#[export] Instance env : Env := {
  makeLookupFunction := lookup;
  expandArraysInBranches := expand;
  _cmp := cmp;
  toNumber := number
}.

End SpecEnv.

(** ** Reference definitions and example data *)

(** The key comparator in the words of the specification: the result of
    field [i] is the value comparator's result on [key1[i]] and [key2[i]],
    negated when part [i] is descending; the overall result is the first
    field result that is not zero, and zero when there is none. *)
Definition fieldResult `{Env} (self : sorter) (key1 key2 : key) (i : nat) : Z :=
  let c := _cmp (nth i key1 JUndefined) (nth i key2 JUndefined) in
  match nth_error (_sortSpecParts self) i with
  | Some part => if ascending part then c else - c
  | None => c
  end.

Fixpoint firstNonZero (l : list Z) : Z :=
  match l with
  | [] => 0
  | c :: l' => if c =? 0 then firstNonZero l' else c
  end.

Definition specCompareKeys `{Env} (self : sorter) (key1 key2 : key)
  : result Z :=
  let n := List.length (_sortSpecParts self) in
  if (List.length key1 =? n)%nat && (List.length key2 =? n)%nat
  then ret (firstNonZero (map (fieldResult self key1 key2) (seq 0 n)))
  else throw KeyHasWrongLength.

(** The accepted shapes of a sort specification: a mapping, or a sequence
    of bare path strings and [(path, direction)] pairs. *)
Definition acceptedElem (e : jsval) : bool :=
  match e with
  | JStr _ => true
  | JArr [JStr _; _] => true
  | _ => false
  end.

Definition acceptedShape (spec : jsval) : bool :=
  match spec with
  | JObj _ => true
  | JArr elems => forallb acceptedElem elems
  | _ => false
  end.

Definition elemPath (e : jsval) : list string :=
  match e with
  | JStr p => [p]
  | JArr (JStr p :: _) => [p]
  | _ => []
  end.

(** The field paths of a specification of an accepted shape. *)
Definition specPaths (spec : jsval) : list string :=
  match spec with
  | JObj props => map fst props
  | JArr elems => flat_map elemPath elems
  | _ => []
  end.

(** A path that is empty or begins with the operator marker. *)
Definition badPath (p : string) : bool :=
  String.eqb p EmptyString || startsWithDollar p.

(** A value comparator is an order when it is antisymmetric in sign and
    transitive. *)
Definition isOrder {A : Type} (f : A -> A -> Z) : Prop :=
  (forall a b, f a b < 0 <-> 0 < f b a) /\
  (forall a b c, f a b <= 0 -> f b c <= 0 -> f a c <= 0).

(** The result of the key comparator on keys of the right length. *)
Definition keyOrder `{Env} (self : sorter) (key1 key2 : key) : Z :=
  firstNonZero
    (map (fieldResult self key1 key2)
         (seq 0 (List.length (_sortSpecParts self)))).

(** The keys that the second half of [_generateKeysFromDoc] computes, each
    with the error it may throw, in the order of the calls of [cb]. *)
Definition keySequence `{Env} (valuesByIndexAndPath : list (jsobj jsval))
    (knownPaths : option (jsobj bool)) : list (result key) :=
  match knownPaths with
  | None => [soleKey valuesByIndexAndPath]
  | Some known => map (fun kv => keyAt valuesByIndexAndPath (fst kv)) known
  end.

Definition feed {S : Type} (cb : key -> S -> result S) (s : S)
    (k : result key) : result S :=
  k' <- k ;; cb k' s.

(** The errors that key extraction itself throws. *)
Definition extractionError (e : error) : Prop :=
  match e with
  | NoSpec | MultipleBranchesNoArray | DuplicatePath _
  | CannotIndexParallelArrays | CannotIndexParallelArraysBang
  | NoValueInSoleKeyCase | MissingPathError => True
  | _ => False
  end.

(** The errors that the loop over the branches of one part throws. *)
Definition branchError (e : error) : Prop :=
  match e with
  | MultipleBranchesNoArray | DuplicatePath _
  | CannotIndexParallelArrays | CannotIndexParallelArraysBang => True
  | _ => False
  end.

(** The path keys of the branches that carry array indices. *)
Definition pathKeys (branches : list branch) : list string :=
  flat_map (fun b => match arrayIndices b with
                     | Some indices => [pathFromIndices indices]
                     | None => []
                     end) branches.

Definition allIndexed (branches : list branch) : bool :=
  forallb (fun b => match arrayIndices b with Some _ => true | None => false end)
          branches.

(** The key that the callback of [_getMinKeyFromDoc] holds after the keys
    [ks], starting from [m]. *)
Fixpoint minKeyOf `{Env} (self : sorter) (m : key) (ks : list key) : key :=
  match ks with
  | [] => m
  | k :: ks' => minKeyOf self (if keyOrder self k m <? 0 then k else m) ks'
  end.

Definition E0 : Env := SpecEnv.env.

(** The document [{a: [{x: 0, y: 5}, {x: 1, y: 3}]}] and the sort spec
    [{'a.x': 1, 'a.y': 1}]. *)
Definition exDoc : jsval :=
  JObj [("a", JArr [JObj [("x", JNum 0); ("y", JNum 5)];
                    JObj [("x", JNum 1); ("y", JNum 3)]])].
Definition exSpec : jsval := JObj [("a.x", JNum 1); ("a.y", JNum 1)].
Definition exSorter : sorter :=
  MkSorter [SpecPart "a.x" true; SpecPart "a.y" true].

(** The three spellings of "a ascending, then b descending". *)
Definition specMapping : jsval := JObj [("a", JNum 1); ("b", JNum (-1))].
Definition specPairs : jsval :=
  JArr [JArr [JStr "a"; JStr "asc"]; JArr [JStr "b"; JStr "desc"]].
Definition specMixed : jsval :=
  JArr [JStr "a"; JArr [JStr "b"; JStr "desc"]].
Definition abSorter : sorter :=
  MkSorter [SpecPart "a" true; SpecPart "b" false].

(** Two documents and their [$near] distances. *)
Definition docX : jsval := JObj [("_id", JStr "x")].
Definition docY : jsval := JObj [("_id", JStr "y")].
Definition exDistances : distanceMap :=
  fun id =>
    match id with
    | JStr "x" => Some 1
    | JStr "y" => Some 5
    | _ => None
    end.

(** Parallel arrays: [{a: [1, 2], b: [3, 4, 5]}] under [{a: 1, b: 1}]. *)
Definition parDoc : jsval :=
  JObj [("a", JArr [JNum 1; JNum 2]); ("b", JArr [JNum 3; JNum 4; JNum 5])].
Definition parSpec : jsval := JObj [("a", JNum 1); ("b", JNum 1)].
Definition parSorter : sorter :=
  MkSorter [SpecPart "a" true; SpecPart "b" true].

(** The sorter with every direction reversed. *)
Definition flipDirections (self : sorter) : sorter :=
  MkSorter (map (fun part => SpecPart (path part) (negb (ascending part)))
                (_sortSpecParts self)).

(** A comparison result seen through the direction of a part. *)
Definition signed (part : specPart) (c : Z) : Z :=
  if ascending part then c else - c.


(** What the first loop of [_generateKeysFromDoc] keeps true of
    [valuesByIndexAndPath] and [knownPaths]: every part has either its
    sole value (under the empty path) or a value for each known path. *)
Definition valuesCover (vs : list (list (string * jsval)))
    (knownPaths : option (list (string * bool))) : Prop :=
  match knownPaths with
  | None => Forall (fun values => Obj.has values EmptyString = true) vs
  | Some known =>
      Forall (fun values =>
                Obj.has values EmptyString = true
                \/ forall p, In p (Obj.keys known) -> Obj.has values p = true)
             vs
  end.

(** The part that an element of an array specification stands for, and
    the part that an entry of a mapping stands for. *)
Definition partOfElem (e : jsval) : list specPart :=
  match e with
  | JStr p => [SpecPart p true]
  | JArr [JStr p; d] => [SpecPart p (negb (strictEqStr d "desc"))]
  | _ => []
  end.

Definition partOfEntry `{Env} (kv : string * jsval) : specPart :=
  SpecPart (fst kv) (geZero (snd kv)).

(** * Properties *)

(** ** The sorter on small inputs *)

Section SmallInputs.
#[local] Existing Instance E0.

Example basic_ordering_ascending :
  (s <- Sorter (JObj [("a", JNum 1)]) ;;
   getComparator s None (JObj [("a", JNum 3)]) (JObj [("a", JNum 5)]))
  = ret (-2).
Proof. reflexivity. Qed.

Example basic_ordering_descending :
  (s <- Sorter (JObj [("a", JNum (-1))]) ;;
   getComparator s None (JObj [("a", JNum 3)]) (JObj [("a", JNum 5)]))
  = ret 2.
Proof. reflexivity. Qed.

Example equal_documents_tie :
  (s <- Sorter specMixed ;;
   getComparator s None (JObj [("a", JNum 3); ("b", JStr "u")])
                        (JObj [("b", JStr "u"); ("a", JNum 3)]))
  = ret 0.
Proof. reflexivity. Qed.

Example rejects_operator_path :
  Sorter (JObj [("$gt", JNum 1)]) = throw (UnsupportedSortKey "$gt").
Proof. reflexivity. Qed.

Example rejects_empty_path :
  Sorter (JArr [JStr EmptyString]) = throw SortKeysMustBeNonEmpty.
Proof. reflexivity. Qed.

Example rejects_null_element :
  Sorter (JArr [JStr "a"; JNull]) = throw TypeError.
Proof. reflexivity. Qed.

Example aligned_arrays_keys :
  keysOf parSorter
    (JObj [("a", JArr [JNum 1; JNum 2]); ("b", JArr [JNum 3; JNum 4])])
  = ret [[JNum 1; JNum 3]; [JNum 2; JNum 4]].
Proof. reflexivity. Qed.

Example shorter_array_rejected :
  keysOf parSorter
    (JObj [("a", JArr [JNum 1; JNum 2; JNum 3]); ("b", JArr [JNum 3; JNum 4])])
  = throw CannotIndexParallelArraysBang.
Proof. reflexivity. Qed.

Example scalar_is_broadcast :
  keysOf parSorter
    (JObj [("a", JArr [JNum 1; JNum 2]); ("b", JNum 7)])
  = ret [[JNum 1; JNum 7]; [JNum 2; JNum 7]].
Proof. reflexivity. Qed.

Example descending_minimum_is_maximum :
  _getMinKeyFromDoc (MkSorter [SpecPart "a" false])
    (JObj [("a", JArr [JNum 1; JNum 9; JNum 4])])
  = ret [JNum 9].
Proof. reflexivity. Qed.

End SmallInputs.

(** ** The result monad *)

Lemma bind_ret_inv {A B : Type} (m : result A) (k : A -> result B) (b : B) :
  bind m k = ret b -> exists a, m = ret a /\ k a = ret b.
Proof.
  destruct m as [a|e]; simpl; intros H; [eauto | discriminate].
Qed.

Lemma foldM_app {A S : Type} (f : S -> A -> result S) (l1 l2 : list A) (s : S) :
  foldM f (l1 ++ l2) s = (s' <- foldM f l1 s ;; foldM f l2 s').
Proof.
  revert s; induction l1 as [|x l1 IH]; intros s; simpl; [reflexivity|].
  destruct (f s x); simpl; auto.
Qed.

Lemma mapM_length {A B : Type} (f : A -> result B) (l : list A) (r : list B) :
  mapM f l = ret r -> List.length r = List.length l.
Proof.
  revert r; induction l as [|x l IH]; simpl; intros r H.
  - inversion H; reflexivity.
  - destruct (f x); simpl in H; [|discriminate].
    destruct (mapM f l); simpl in H; [|discriminate].
    inversion H; subst; simpl; f_equal; auto.
Qed.

Lemma mapM_nth_error {A B : Type} (f : A -> result B) (l : list A)
    (r : list B) (i : nat) (x : A) :
  mapM f l = ret r -> nth_error l i = Some x ->
  exists y, f x = ret y /\ nth_error r i = Some y.
Proof.
  revert r i; induction l as [|a l IH]; simpl; intros r i H Hi.
  - destruct i; discriminate.
  - destruct (f a) eqn:Hf; simpl in H; [|discriminate].
    destruct (mapM f l) eqn:Hm; simpl in H; [|discriminate].
    inversion H; subst.
    destruct i; simpl in *.
    + inversion Hi; subst; eauto.
    + eapply IH; eauto.
Qed.

(** ** The key comparator *)

Section KeyComparator.
Context `{E : Env}.
Variable self : sorter.

Lemma _keyFieldComparator_in_range (i : nat) (key1 key2 : key) :
  (i < List.length (_sortSpecParts self))%nat ->
  _keyFieldComparator self i key1 key2 = ret (fieldResult self key1 key2 i).
Proof.
  intros Hi. unfold _keyFieldComparator, fieldResult.
  destruct (nth_error (_sortSpecParts self) i) as [part|] eqn:Hn.
  - destruct (ascending part); reflexivity.
  - apply nth_error_None in Hn; lia.
Qed.

Lemma composeComparators_fields (indices : list nat) (key1 key2 : key) :
  Forall (fun i => (i < List.length (_sortSpecParts self))%nat) indices ->
  composeComparators (map (fun i => _keyFieldComparator self i) indices)
                     key1 key2
  = ret (firstNonZero (map (fieldResult self key1 key2) indices)).
Proof.
  induction 1 as [|i indices Hi _ IH]; simpl; [reflexivity|].
  rewrite _keyFieldComparator_in_range by assumption; simpl.
  destruct (fieldResult self key1 key2 i =? 0); simpl; auto.
Qed.

Lemma _keyComparator_keyOrder (key1 key2 : key) :
  _keyComparator self key1 key2 = ret (keyOrder self key1 key2).
Proof.
  unfold _keyComparator, keyOrder.
  apply composeComparators_fields.
  apply Forall_forall; intros i Hi. apply in_seq in Hi; lia.
Qed.

Lemma _compareKeys_in_range (key1 key2 : key) :
  List.length key1 = List.length (_sortSpecParts self) ->
  List.length key2 = List.length (_sortSpecParts self) ->
  _compareKeys self key1 key2 = ret (keyOrder self key1 key2).
Proof.
  intros H1 H2. unfold _compareKeys.
  rewrite H1, H2, Nat.eqb_refl; simpl.
  apply _keyComparator_keyOrder.
Qed.

End KeyComparator.

(** C2. On two key vectors [_compareKeys] computes what the specification
    describes: when both lengths equal the number of parts, the first
    non-zero result among the per-field results (the value comparator on
    [key1[i]] and [key2[i]], negated for a descending part) taken in spec
    order, and zero when every field compares zero; when a length differs,
    the error "Key has wrong length". *)
Theorem compareKeys_refines_spec :
  forall (E : Env) (self : sorter) (key1 key2 : key),
    _compareKeys self key1 key2 = specCompareKeys self key1 key2.
Proof.
  intros E self key1 key2. unfold _compareKeys, specCompareKeys.
  destruct (List.length key1 =? List.length (_sortSpecParts self))%nat;
    simpl; [|reflexivity].
  destruct (List.length key2 =? List.length (_sortSpecParts self))%nat;
    simpl; [|reflexivity].
  apply _keyComparator_keyOrder.
Qed.

(** C8. With zero parts the base comparator answers 0 for every pair of
    documents; key extraction is not run, since on such a sorter it would
    throw "can't generate keys without a spec". *)
Theorem base_comparator_empty_spec :
  forall (E : Env) (doc1 doc2 : jsval),
    _getBaseComparator (MkSorter []) doc1 doc2 = ret 0
    /\ (forall (S : Type) (cb : key -> S -> result S) (s : S),
          _generateKeysFromDoc (MkSorter []) doc1 cb s = throw NoSpec)
    /\ _getMinKeyFromDoc (MkSorter []) doc1 = throw NoSpec.
Proof.
  intros E doc1 doc2. repeat split.
Qed.

(** C10. [new Minimongo.Sorter(null)] does not throw: [null] is not an
    array and its [typeof] is "object", so the mapping branch runs over no
    key at all; the sorter has no part, and its comparator without
    distances answers 0 for every pair of documents. *)
Theorem sorter_of_null :
  forall (E : Env) (doc1 doc2 : jsval),
    instanceofArray JNull = false
    /\ typeof JNull = "object"
    /\ _each_entries JNull = []
    /\ Sorter JNull = ret (MkSorter [])
    /\ (s <- Sorter JNull ;; ret (_sortSpecParts s)) = ret []
    /\ (s <- Sorter JNull ;; getComparator s None doc1 doc2) = ret 0
    /\ (s <- Sorter JNull ;; getComparator s (Some (Options None)) doc1 doc2)
       = ret 0.
Proof.
  intros E doc1 doc2. repeat split.
Qed.

(** ** The sort-spec compiler *)

Lemma addSpecPart_string (parts : list specPart) (p : string) (asc : bool) :
  addSpecPart parts (JStr p) asc =
  if String.eqb p EmptyString then throw SortKeysMustBeNonEmpty
  else if startsWithDollar p then throw (UnsupportedSortKey p)
       else ret (parts ++ [SpecPart p asc]).
Proof.
  unfold addSpecPart; simpl. destruct (String.eqb p EmptyString); reflexivity.
Qed.

Lemma addSpecPart_good (parts : list specPart) (p : string) (asc : bool) :
  badPath p = false ->
  addSpecPart parts (JStr p) asc = ret (parts ++ [SpecPart p asc]).
Proof.
  unfold badPath; intros H. apply orb_false_iff in H as [H1 H2].
  rewrite addSpecPart_string, H1, H2; reflexivity.
Qed.

Lemma addSpecPart_bad (parts : list specPart) (p : string) (asc : bool) :
  badPath p = true ->
  exists e, addSpecPart parts (JStr p) asc = throw e /\ InvalidSpec e.
Proof.
  unfold badPath; intros H. rewrite addSpecPart_string.
  destruct (String.eqb p EmptyString); simpl in *.
  - exists SortKeysMustBeNonEmpty; split; [reflexivity | exact I].
  - rewrite H. exists (UnsupportedSortKey p); split; [reflexivity | exact I].
Qed.

(** What the loop body does on an element of an accepted shape. *)
Lemma arraySpecStep_accepted `{E : Env} (parts : list specPart) (e : jsval) :
  acceptedElem e = true ->
  exists p asc,
    elemPath e = [p] /\ arraySpecStep parts e = addSpecPart parts (JStr p) asc.
Proof.
  destruct e as [| | | | p | elems | ]; simpl; try discriminate.
  - intros _. exists p, true; split; reflexivity.
  - destruct elems as [|[| | | | p | |] [|d [|]]]; try discriminate.
    intros _. exists p, (negb (strictEqStr d "desc")); split; reflexivity.
Qed.

Lemma arraySpec_bad `{E : Env} (elems : list jsval) (parts : list specPart) :
  forallb acceptedElem elems = true ->
  existsb badPath (flat_map elemPath elems) = true ->
  exists e, foldM arraySpecStep elems parts = throw e /\ InvalidSpec e.
Proof.
  revert parts; induction elems as [|x elems IH]; simpl; intros parts Ha Hb.
  - discriminate.
  - apply andb_true_iff in Ha as [Hx Ha].
    destruct (arraySpecStep_accepted parts x Hx) as (p & asc & Hp & Hstep).
    rewrite Hp in Hb; simpl in Hb. rewrite Hstep.
    destruct (badPath p) eqn:Hbad.
    + destruct (addSpecPart_bad parts p asc Hbad) as (e & He & Hk).
      exists e; rewrite He; auto.
    + rewrite (addSpecPart_good parts p asc Hbad); simpl. apply IH; auto.
Qed.

Lemma arraySpec_good `{E : Env} (elems : list jsval) (parts : list specPart) :
  forallb acceptedElem elems = true ->
  existsb badPath (flat_map elemPath elems) = false ->
  exists parts',
    foldM arraySpecStep elems parts = ret parts'
    /\ map path parts' = map path parts ++ flat_map elemPath elems.
Proof.
  revert parts; induction elems as [|x elems IH]; simpl; intros parts Ha Hb.
  - exists parts; rewrite app_nil_r; auto.
  - apply andb_true_iff in Ha as [Hx Ha].
    destruct (arraySpecStep_accepted parts x Hx) as (p & asc & Hp & Hstep).
    rewrite Hp in Hb |- *; simpl in Hb |- *.
    apply orb_false_iff in Hb as [Hbad Hb].
    rewrite Hstep, (addSpecPart_good parts p asc Hbad); simpl.
    destruct (IH (parts ++ [SpecPart p asc]) Ha Hb) as (parts' & Hf & Hm).
    exists parts'; split; [assumption|].
    rewrite Hm, map_app, <- app_assoc; reflexivity.
Qed.

Lemma objectSpec_bad `{E : Env} (props : list (string * jsval))
    (parts : list specPart) :
  existsb badPath (map fst props) = true ->
  exists e, foldM objectSpecStep props parts = throw e /\ InvalidSpec e.
Proof.
  revert parts; induction props as [|[k v] props IH]; simpl; intros parts Hb.
  - discriminate.
  - destruct (badPath k) eqn:Hbad.
    + destruct (addSpecPart_bad parts k (geZero v) Hbad) as (e & He & Hk).
      exists e; rewrite He; auto.
    + rewrite (addSpecPart_good parts k (geZero v) Hbad); simpl. apply IH; auto.
Qed.

Lemma objectSpec_good `{E : Env} (props : list (string * jsval))
    (parts : list specPart) :
  existsb badPath (map fst props) = false ->
  exists parts',
    foldM objectSpecStep props parts = ret parts'
    /\ map path parts' = map path parts ++ map fst props.
Proof.
  revert parts; induction props as [|[k v] props IH]; simpl; intros parts Hb.
  - exists parts; rewrite app_nil_r; auto.
  - apply orb_false_iff in Hb as [Hbad Hb].
    rewrite (addSpecPart_good parts k (geZero v) Hbad); simpl.
    destruct (IH (parts ++ [SpecPart k (geZero v)]) Hb) as (parts' & Hf & Hm).
    exists parts'; split; [assumption|].
    rewrite Hm, map_app, <- app_assoc; reflexivity.
Qed.

(** C4, as the specification states it, fails at [null]: [null] is none of
    the accepted shapes, and a sorter is produced. *)
Lemma invalid_spec_null_counterexample :
  ~ (forall spec : jsval,
       acceptedShape spec = false ->
       exists e, Sorter (E := E0) spec = throw e /\ InvalidSpec e).
Proof.
  intros H. destruct (H JNull eq_refl) as (e & He & _). discriminate He.
Qed.

(** C4, amended.  Compiling a specification of an accepted shape throws
    one of the invalid-spec errors when one of its field paths is empty or
    begins with [$] (and otherwise yields a sorter over exactly these
    paths); compiling a value that is neither an array nor of type
    "object" throws "Bad sort specification"; no sorter is produced in
    these cases.  [null] is of type "object" and compiles to a sorter
    without parts. *)
Theorem invalid_spec_rejected :
  forall (E : Env) (spec : jsval),
    (acceptedShape spec = true ->
     if existsb badPath (specPaths spec)
     then exists e, Sorter spec = throw e /\ InvalidSpec e
     else exists s, Sorter spec = ret s /\ _getPaths s = specPaths spec)
    /\ (instanceofArray spec = false -> typeof spec <> "object" ->
        Sorter spec = throw (BadSortSpecification spec)
        /\ InvalidSpec (BadSortSpecification spec))
    /\ Sorter JNull = ret (MkSorter []).
Proof.
  intros E spec. split; [|split].
  - destruct spec as [| | | | | elems | props]; simpl; try discriminate.
    + intros Ha. unfold Sorter; simpl.
      destruct (existsb badPath (flat_map elemPath elems)) eqn:Hb.
      * destruct (arraySpec_bad elems [] Ha Hb) as (e & He & Hk).
        exists e; rewrite He; auto.
      * destruct (arraySpec_good elems [] Ha Hb) as (parts & Hf & Hm).
        exists (MkSorter parts); rewrite Hf; auto.
    + intros _. unfold Sorter; simpl.
      destruct (existsb badPath (map fst props)) eqn:Hb.
      * destruct (objectSpec_bad props [] Hb) as (e & He & Hk).
        exists e; rewrite He; auto.
      * destruct (objectSpec_good props [] Hb) as (parts & Hf & Hm).
        exists (MkSorter parts); rewrite Hf; auto.
  - intros Harr Hty. split; [|exact I].
    destruct spec; simpl in *; try discriminate; try reflexivity;
      exfalso; apply Hty; reflexivity.
  - reflexivity.
Qed.

Lemma invalid_spec_rejected_witness :
  acceptedShape (JArr [JStr "a"; JStr EmptyString]) = true
  /\ (exists e, Sorter (E := E0) (JArr [JStr "a"; JStr EmptyString]) = throw e
                /\ InvalidSpec e)
  /\ (exists e, Sorter (E := E0) (JObj [("$gt", JNum 1)]) = throw e
                /\ InvalidSpec e)
  /\ Sorter (E := E0) (JStr "a")
     = throw (BadSortSpecification (JStr "a")).
Proof.
  split; [reflexivity|]. split; [|split].
  - exact (proj1 (invalid_spec_rejected E0 (JArr [JStr "a"; JStr EmptyString]))
                 eq_refl).
  - exact (proj1 (invalid_spec_rejected E0 (JObj [("$gt", JNum 1)]))
                 eq_refl).
  - refine (proj1 (proj1 (proj2 (invalid_spec_rejected E0 (JStr "a")))
                         eq_refl _)).
    simpl; discriminate.
Defined.

(** C5. The three spellings of "a ascending, then b descending" compile
    to the same parts, so their comparators give the same answer on every
    pair of documents, with or without distances.  In general a mapping
    entry with weight [w] compiles to a part that is ascending exactly
    when [0 <= w], a bare path string to an ascending part, and a pair to
    a part that is descending exactly when its direction is the string
    "desc". *)
Theorem spec_shapes_equivalent :
  forall (E : Env) (p : string) (Hp : badPath p = false)
         (w : Z) (d : jsval) (parts : list specPart),
    (Sorter specMapping = ret abSorter
     /\ Sorter specPairs = ret abSorter
     /\ Sorter specMixed = ret abSorter)
    /\ (forall opts doc1 doc2,
          (s <- Sorter specMapping ;; getComparator s opts doc1 doc2)
          = (s <- Sorter specPairs ;; getComparator s opts doc1 doc2)
          /\ (s <- Sorter specPairs ;; getComparator s opts doc1 doc2)
             = (s <- Sorter specMixed ;; getComparator s opts doc1 doc2))
    /\ objectSpecStep parts (p, JNum w)
       = ret (parts ++ [SpecPart p (0 <=? w)])
    /\ arraySpecStep parts (JStr p) = ret (parts ++ [SpecPart p true])
    /\ arraySpecStep parts (JArr [JStr p; d])
       = ret (parts ++ [SpecPart p (negb (strictEqStr d "desc"))])
    /\ ((0 <=? w) = true <-> 0 <= w)
    /\ (strictEqStr d "desc" = true <-> d = JStr "desc").
Proof.
  intros E p Hp w d parts.
  split; [repeat split|]. split; [intros; split; reflexivity|].
  split; [|split; [|split; [|split]]].
  - simpl. apply addSpecPart_good; assumption.
  - unfold arraySpecStep; simpl. apply addSpecPart_good; assumption.
  - unfold arraySpecStep; simpl. apply addSpecPart_good; assumption.
  - apply Z.leb_le.
  - destruct d; simpl; split; try discriminate.
    + intros H; apply String.eqb_eq in H; congruence.
    + intros H; inversion H; reflexivity.
Qed.

Lemma spec_shapes_equivalent_witness :
  Sorter (E := E0) specMapping = ret abSorter
  /\ Sorter (E := E0) specPairs = ret abSorter
  /\ Sorter (E := E0) specMixed = ret abSorter.
Proof.
  exact (proj1 (spec_shapes_equivalent E0 "a" eq_refl 1 (JStr "asc") [])).
Defined.

(** ** The distance tie-break *)

Lemma getComparator_distances `{E : Env} (self : sorter)
    (dist : distanceMap) (a b : jsval) :
  getComparator self (Some (Options (Some dist))) a b =
  (c <- _getBaseComparator self a b ;;
   if c =? 0 then distanceComparator dist a b else ret c).
Proof.
  simpl. destruct (_getBaseComparator self a b) as [c|e]; simpl; auto.
  destruct (c =? 0); simpl; auto.
  destruct (distanceComparator dist a b) as [c'|e]; simpl; auto.
  destruct (c' =? 0) eqn:Hc; simpl; auto.
  apply Z.eqb_eq in Hc; subst; reflexivity.
Qed.

(** C3, as the specification states it, fails: on two documents that tie
    on the base comparator the result does not have the sign of
    [distance[docB.id] - distance[docA.id]]. *)
Lemma distance_sign_counterexample :
  ~ (exists c dA dB,
       exDistances (JStr "x") = Some dA
       /\ exDistances (JStr "y") = Some dB
       /\ getComparator (E := E0) (MkSorter [])
            (Some (Options (Some exDistances))) docX docY = ret c
       /\ Z.sgn c = Z.sgn (dB - dA)).
Proof.
  intros (c & dA & dB & HA & HB & Hc & Hs).
  inversion HA; inversion HB; inversion Hc; subst.
  discriminate Hs.
Qed.

(** C3, amended.  With a distance map, the comparator is the base
    comparator followed, when that answers 0, by the distance comparator:
    the result is [distance[docA.id] - distance[docB.id]], negative when
    [docA] is the closer one, so that closer documents come first; it
    throws "Missing distance" when the identifier of [docA], or else that
    of [docB], is not in the map.  A non-zero answer or an error of the
    base comparator is the result as it is. *)
Theorem distance_tie_break :
  forall (E : Env) (self : sorter) (dist : distanceMap) (a b ida idb : jsval)
         (Ha : _id a = ret ida) (Hb : _id b = ret idb),
    let cmp := getComparator self (Some (Options (Some dist))) in
    (forall e, _getBaseComparator self a b = throw e -> cmp a b = throw e)
    /\ (forall c, _getBaseComparator self a b = ret c -> c <> 0 ->
        cmp a b = ret c)
    /\ (_getBaseComparator self a b = ret 0 ->
        match dist ida, dist idb with
        | None, _ => cmp a b = throw (MissingDistanceFor ida)
        | Some _, None => cmp a b = throw (MissingDistanceFor idb)
        | Some da, Some db =>
            cmp a b = ret (da - db)
            /\ (da < db <-> da - db < 0)
            /\ (db < da <-> 0 < da - db)
        end).
Proof.
  intros E self dist a b ida idb Ha Hb cmp. subst cmp.
  rewrite getComparator_distances.
  split; [|split].
  - intros e He; rewrite He; reflexivity.
  - intros c Hc Hnz; rewrite Hc; simpl.
    destruct (c =? 0) eqn:H0; [apply Z.eqb_eq in H0; contradiction|].
    reflexivity.
  - intros H0; rewrite H0; simpl.
    unfold distanceComparator; rewrite Ha; simpl.
    destruct (dist ida) as [da|]; [|reflexivity].
    rewrite Hb; simpl.
    destruct (dist idb) as [db|]; [|reflexivity].
    split; [reflexivity|]. lia.
Qed.

Lemma distance_tie_break_witness :
  getComparator (E := E0) (MkSorter []) (Some (Options (Some exDistances)))
    docX docY = ret (1 - 5)
  /\ getComparator (E := E0) (MkSorter []) (Some (Options (Some exDistances)))
       docX (JObj []) = throw (MissingDistanceFor JUndefined).
Proof.
  split.
  - exact (proj1 (proj2 (proj2 (distance_tie_break E0 (MkSorter [])
             exDistances docX docY eq_refl eq_refl)) eq_refl)).
  - exact (proj2 (proj2 (distance_tie_break E0 (MkSorter [])
             exDistances docX (JObj []) eq_refl eq_refl)) eq_refl).
Defined.

(** ** Key extraction *)

Lemma bind_ret_r {A : Type} (m : result A) : (x <- m ;; ret x) = m.
Proof. destruct m; reflexivity. Qed.

Lemma foldM_map {A B S : Type} (f : S -> B -> result S) (g : A -> B)
    (l : list A) (s : S) :
  foldM f (map g l) s = foldM (fun s x => f s (g x)) l s.
Proof.
  revert s; induction l as [|x l IH]; intros s; simpl; [reflexivity|].
  destruct (f s (g x)); simpl; auto.
Qed.

Lemma foldM_throws {A S : Type} (P : error -> Prop) (f : S -> A -> result S)
    (l : list A) (s : S) (e : error) :
  (forall s x e, f s x = throw e -> P e) ->
  foldM f l s = throw e -> P e.
Proof.
  intros Hf; revert s; induction l as [|x l IH]; intros s; simpl.
  - discriminate.
  - destruct (f s x) as [s'|e'] eqn:Hx; simpl.
    + apply IH.
    + intros H; inversion H; subst; eauto.
Qed.

Lemma mapM_throws {A B : Type} (P : error -> Prop) (f : A -> result B)
    (l : list A) (e : error) :
  (forall x e, f x = throw e -> P e) ->
  mapM f l = throw e -> P e.
Proof.
  intros Hf; induction l as [|x l IH]; simpl.
  - discriminate.
  - destruct (f x) as [y|e'] eqn:Hx; simpl.
    + destruct (mapM f l); simpl; [discriminate|].
      intros H; inversion H; subst; auto.
    + intros H; inversion H; subst; eauto.
Qed.

(** Feeding a sequence of keys to the collecting callback succeeds exactly
    when no key of the sequence is an error. *)
Lemma feed_collect (keys : list (result key)) (acc ks : list key) :
  foldM (feed (fun k acc => ret (acc ++ [k]))) keys acc = ret ks ->
  exists ks', keys = map ret ks' /\ ks = acc ++ ks'.
Proof.
  revert acc; induction keys as [|[k|e] keys IH]; simpl; intros acc H.
  - inversion H; subst. exists []; rewrite app_nil_r; auto.
  - destruct (IH _ H) as (ks' & -> & ->).
    exists (k :: ks'); rewrite <- app_assoc; auto.
  - discriminate.
Qed.

Lemma feed_all_ret {S : Type} (cb : key -> S -> result S) (ks : list key)
    (s : S) :
  foldM (feed cb) (map ret ks) s = foldM (fun s k => cb k s) ks s.
Proof.
  revert s; induction ks as [|k ks IH]; intros s; simpl; [reflexivity|].
  destruct (cb k s); simpl; auto.
Qed.

Lemma collect_ret (ks acc : list key) :
  foldM (fun acc k => ret (acc ++ [k])) ks acc = ret (acc ++ ks).
Proof.
  revert acc; induction ks as [|k ks IH]; intros acc; simpl.
  - rewrite app_nil_r; reflexivity.
  - rewrite IH, <- app_assoc; reflexivity.
Qed.

Lemma feed_ret_inv {S : Type} (cb : key -> S -> result S)
    (keys : list (result key)) (s s' : S) :
  foldM (feed cb) keys s = ret s' -> exists ks, keys = map ret ks.
Proof.
  revert s; induction keys as [|[k|e] keys IH]; simpl; intros s H.
  - exists []; reflexivity.
  - destruct (cb k s) as [s1|]; simpl in H; [|discriminate].
    destruct (IH _ H) as (ks & ->). exists (k :: ks); reflexivity.
  - discriminate.
Qed.

Lemma feed_throws {S : Type} (cb : key -> S -> result S)
    (keys : list (result key)) (s : S) (e : error) :
  foldM (feed cb) keys s = throw e ->
  In (throw e) keys \/ exists k s0, cb k s0 = throw e.
Proof.
  revert s; induction keys as [|[k|e'] keys IH]; simpl; intros s H.
  - discriminate.
  - destruct (cb k s) as [s1|e1] eqn:Hc; simpl in H.
    + destruct (IH _ H); auto.
    + inversion H; subst; eauto.
  - inversion H; subst; auto.
Qed.

Section Extraction.
Context `{E : Env}.

(** [_generateKeysFromDoc] is its first loop followed by the calls of
    the callback on the key sequence. *)
Lemma _generateKeysFromDoc_unfold {S : Type} (self : sorter) (doc : jsval)
    (cb : key -> S -> result S) (s : S) :
  _generateKeysFromDoc self doc cb s =
  if (List.length (_sortSpecParts self) =? 0)%nat then throw NoSpec
  else
    st <- valuesAndPaths (_sortSpecParts self) doc ;;
    foldM (feed cb) (keySequence (fst st) (snd st)) s.
Proof.
  unfold _generateKeysFromDoc.
  destruct (List.length (_sortSpecParts self) =? 0)%nat; [reflexivity|].
  destruct (valuesAndPaths (_sortSpecParts self) doc) as [[vs [known|]]|e];
    simpl; auto.
  - rewrite foldM_map; reflexivity.
  - unfold feed. destruct (soleKey vs); simpl; auto.
    symmetry; apply bind_ret_r.
Qed.

Lemma keysOf_inv (self : sorter) (doc : jsval) (ks : list key) :
  keysOf self doc = ret ks ->
  exists vs known,
    _sortSpecParts self <> []
    /\ valuesAndPaths (_sortSpecParts self) doc = ret (vs, known)
    /\ keySequence vs known = map ret ks.
Proof.
  unfold keysOf; rewrite _generateKeysFromDoc_unfold.
  destruct (_sortSpecParts self) as [|p ps] eqn:Hp; simpl; [discriminate|].
  rewrite <- Hp.
  destruct (valuesAndPaths (_sortSpecParts self) doc) as [[vs known]|e];
    simpl; [|discriminate].
  intros H. apply feed_collect in H as (ks' & Hk & ->).
  exists vs, known; rewrite Hp; repeat split; auto. discriminate.
Qed.

(** When the candidate keys exist, every callback sees exactly them. *)
Lemma _generateKeysFromDoc_keysOf {S : Type} (self : sorter) (doc : jsval)
    (ks : list key) (cb : key -> S -> result S) (s : S) :
  keysOf self doc = ret ks ->
  _generateKeysFromDoc self doc cb s = foldM (fun s k => cb k s) ks s.
Proof.
  intros H. destruct (keysOf_inv _ _ H) as (vs & known & Hp & Hv & Hk).
  rewrite _generateKeysFromDoc_unfold, Hv; simpl.
  destruct (_sortSpecParts self); [contradiction|]; simpl.
  rewrite Hk. apply feed_all_ret.
Qed.

Lemma _generateKeysFromDoc_ret_keysOf {S : Type} (self : sorter)
    (doc : jsval) (cb : key -> S -> result S) (s s' : S) :
  _generateKeysFromDoc self doc cb s = ret s' ->
  exists ks, keysOf self doc = ret ks.
Proof.
  unfold keysOf; rewrite !_generateKeysFromDoc_unfold.
  destruct (List.length (_sortSpecParts self) =? 0)%nat; [discriminate|].
  destruct (valuesAndPaths (_sortSpecParts self) doc) as [st|e];
    simpl; [|discriminate].
  intros H. apply feed_ret_inv in H as (ks & ->).
  rewrite feed_all_ret, collect_ret; eauto.
Qed.

End Extraction.

(** *** The first loop *)

Lemma set_nonempty {V : Type} (o : jsobj V) (k : string) (v : V) :
  Obj.set o k v <> [].
Proof.
  destruct o as [|[k' v'] o]; simpl; [discriminate|].
  destruct (String.eqb k' k); discriminate.
Qed.

Lemma branchStep_nonempty (n : nat) (known : option (jsobj bool))
    (st st' : bool * jsobj jsval) (b : branch) :
  branchStep n known st b = ret st' -> snd st' <> [].
Proof.
  unfold branchStep. destruct st as [u values].
  destruct (arrayIndices b) as [indices|].
  - destruct (Obj.has values (pathFromIndices indices)); [discriminate|].
    destruct known as [kn|].
    + destruct (negb (Obj.has kn (pathFromIndices indices))); [discriminate|].
      intros H; inversion H; simpl; apply set_nonempty.
    + intros H; inversion H; simpl; apply set_nonempty.
  - destruct (1 <? n)%nat; [discriminate|].
    intros H; inversion H; simpl; apply set_nonempty.
Qed.

Lemma branchLoop_used (n : nat) (known : option (jsobj bool))
    (branches : list branch) (st st' : bool * jsobj jsval) :
  foldM (branchStep n known) branches st = ret st' ->
  (fst st = true -> snd st <> []) ->
  fst st' = true -> snd st' <> [].
Proof.
  revert st; induction branches as [|b branches IH]; simpl; intros st H Hst.
  - inversion H; subst; assumption.
  - destruct (branchStep n known st b) as [st1|] eqn:Hb; simpl in H;
      [|discriminate].
    apply (IH _ H). intros _. eapply branchStep_nonempty; eauto.
Qed.

Lemma processBranches_inv (vs0 vs : list (jsobj jsval))
    (known0 known : option (jsobj bool)) (branches : list branch) :
  processBranches (vs0, known0) branches = ret (vs, known) ->
  (exists values, vs = vs0 ++ [values])
  /\ match known0 with
     | Some k0 => known = Some k0
     | None => known = None \/ exists k, known = Some k /\ k <> []
     end.
Proof.
  unfold processBranches.
  destruct (foldM (branchStep (List.length branches) known0) branches
                  (false, [])) as [[u values]|] eqn:Hloop; simpl;
    [|discriminate].
  destruct known0 as [k0|].
  - destruct (negb (Obj.has values EmptyString) && _); [discriminate|].
    intros H; inversion H; subst; eauto.
  - destruct u.
    + intros H; inversion H; subst. split; eauto.
      right; eexists; split; [reflexivity|].
      apply branchLoop_used in Hloop; simpl in *; auto; [|discriminate].
      destruct values; [contradiction | discriminate].
    + intros H; inversion H; subst; eauto.
Qed.

Section FirstLoop.
Context `{E : Env}.
Variable doc : jsval.

Lemma valuesAndPaths_inv (parts : list specPart)
    (vs0 vs : list (jsobj jsval)) (known0 known : option (jsobj bool)) :
  foldM (partStep doc) parts (vs0, known0) = ret (vs, known) ->
  List.length vs = (List.length vs0 + List.length parts)%nat
  /\ (exists more, vs = vs0 ++ more)
  /\ ((forall k0, known0 = Some k0 -> k0 <> []) ->
      forall k, known = Some k -> k <> []).
Proof.
  revert vs0 known0; induction parts as [|p parts IH]; simpl;
    intros vs0 known0 H.
  - inversion H; subst. repeat split; auto.
    exists []; rewrite app_nil_r; reflexivity.
  - destruct (partStep doc (vs0, known0) p) as [[vs1 known1]|] eqn:Hp;
      simpl in H; [|discriminate].
    apply processBranches_inv in Hp as ((values & ->) & Hk).
    destruct (IH _ _ H) as (Hlen & (more & ->) & Hne).
    rewrite !length_app in Hlen |- *; simpl in Hlen |- *.
    split; [lia|]. split.
    + exists (values :: more). rewrite <- app_assoc; reflexivity.
    + intros H0. apply Hne. intros k1 ->.
      destruct known0 as [k0|].
      * inversion Hk; subst; auto.
      * destruct Hk as [Hk | (k & Hk & Hn)]; [discriminate|].
        inversion Hk; subst; assumption.
Qed.

Lemma branchStep_throws (n : nat) (known : option (jsobj bool))
    (st : bool * jsobj jsval) (b : branch) (e : error) :
  branchStep n known st b = throw e -> extractionError e.
Proof.
  unfold branchStep. destruct st as [u values].
  destruct (arrayIndices b) as [indices|].
  - destruct (Obj.has values (pathFromIndices indices)).
    + intros H; inversion H; exact I.
    + destruct known as [kn|]; [|discriminate].
      destruct (negb (Obj.has kn (pathFromIndices indices)));
        [|discriminate].
      intros H; inversion H; exact I.
  - destruct (1 <? n)%nat; [|discriminate].
    intros H; inversion H; exact I.
Qed.

Lemma processBranches_throws (st : list (jsobj jsval) * option (jsobj bool))
    (branches : list branch) (e : error) :
  processBranches st branches = throw e -> extractionError e.
Proof.
  unfold processBranches. destruct st as [vs known].
  destruct (foldM (branchStep (List.length branches) known) branches
                  (false, [])) as [[u values]|e'] eqn:Hloop; simpl.
  - destruct known as [k0|].
    + destruct (negb (Obj.has values EmptyString) && _); [|discriminate].
      intros H; inversion H; exact I.
    + destruct u; discriminate.
  - intros H; inversion H; subst.
    eapply foldM_throws; [|exact Hloop].
    intros; eapply branchStep_throws; eauto.
Qed.

Lemma valuesAndPaths_throws (parts : list specPart) (e : error) :
  valuesAndPaths parts doc = throw e -> extractionError e.
Proof.
  apply foldM_throws. intros st p e'. apply processBranches_throws.
Qed.

Lemma keySequence_throws (vs : list (jsobj jsval))
    (known : option (jsobj bool)) (e : error) :
  In (throw e) (keySequence vs known) -> extractionError e.
Proof.
  destruct known as [k|]; simpl.
  - intros H. apply in_map_iff in H as (kv & H & _).
    revert H. apply mapM_throws. intros values e'.
    destruct (Obj.has values EmptyString); [discriminate|].
    destruct (negb (Obj.has values (fst kv))); [|discriminate].
    intros H; inversion H; exact I.
  - intros [H|[]]. revert H. apply mapM_throws. intros values e'.
    destruct (negb (Obj.has values EmptyString)); [|discriminate].
    intros H; inversion H; exact I.
Qed.

Lemma keySequence_lengths (vs : list (jsobj jsval))
    (known : option (jsobj bool)) (ks : list key) :
  keySequence vs known = map ret ks ->
  Forall (fun k => List.length k = List.length vs) ks.
Proof.
  intros H. apply Forall_forall; intros k Hk.
  assert (Hin : In (ret k) (keySequence vs known))
    by (rewrite H; apply in_map; assumption).
  destruct known as [kn|]; simpl in Hin.
  - apply in_map_iff in Hin as (kv & Hin & _).
    apply mapM_length in Hin; assumption.
  - destruct Hin as [Hin|[]]. apply mapM_length in Hin; assumption.
Qed.

End FirstLoop.

(** The candidate keys have one value per part. *)
Lemma keysOf_lengths `{E : Env} (self : sorter) (doc : jsval)
    (ks : list key) :
  keysOf self doc = ret ks ->
  Forall (fun k => List.length k = List.length (_sortSpecParts self)) ks.
Proof.
  intros H. destruct (keysOf_inv _ _ H) as (vs & known & Hp & Hv & Hk).
  apply valuesAndPaths_inv in Hv as (Hlen & _).
  apply keySequence_lengths in Hk. simpl in Hlen. rewrite <- Hlen.
  assumption.
Qed.

(** There is at least one candidate key: the sole key, or one key for
    each of the known paths, of which there is at least one. *)
Lemma keysOf_shape `{E : Env} (self : sorter) (doc : jsval) (ks : list key) :
  keysOf self doc = ret ks ->
  exists vs known,
    valuesAndPaths (_sortSpecParts self) doc = ret (vs, known)
    /\ match known with
       | None => exists k, soleKey vs = ret k /\ ks = [k]
       | Some paths =>
           paths <> []
           /\ map ret ks = map (fun kv => keyAt vs (fst kv)) paths
       end.
Proof.
  intros H. destruct (keysOf_inv _ _ H) as (vs & known & Hp & Hv & Hk).
  exists vs, known; split; [assumption|].
  destruct known as [paths|]; simpl in Hk.
  - split; [|auto].
    apply valuesAndPaths_inv in Hv as (_ & _ & Hne).
    apply (Hne ltac:(discriminate) paths eq_refl).
  - destruct ks as [|k [|k' ks]]; try discriminate.
    inversion Hk; eauto.
Qed.

Lemma keysOf_nonempty `{E : Env} (self : sorter) (doc : jsval)
    (ks : list key) :
  keysOf self doc = ret ks -> ks <> [].
Proof.
  intros H. destruct (keysOf_shape _ _ H) as (vs & known & Hv & Hshape).
  destruct known as [paths|].
  - destruct Hshape as (Hp & Hm). intros ->.
    destruct paths; [contradiction | discriminate].
  - destruct Hshape as (k & _ & ->); discriminate.
Qed.

(** *** The minimum key *)

Section MinKey.
Context `{E : Env}.
Variable self : sorter.

Let rightLength (k : key) : Prop :=
  List.length k = List.length (_sortSpecParts self).

Lemma minKeyOf_in (ks : list key) (m : key) :
  In (minKeyOf self m ks) (m :: ks).
Proof.
  revert m; induction ks as [|k ks IH]; intros m; simpl; [auto|].
  destruct (IH (if keyOrder self k m <? 0 then k else m)) as [H|H]; auto.
  destruct (keyOrder self k m <? 0); auto.
Qed.

Lemma minKeyStep_loop (ks : list key) (m : key) :
  rightLength m -> Forall rightLength ks ->
  foldM (fun s k => minKeyStep self k s) ks (Some m)
  = ret (Some (minKeyOf self m ks)).
Proof.
  revert m; induction ks as [|k ks IH]; intros m Hm Hks; simpl;
    [reflexivity|].
  inversion Hks as [|? ? Hk Hks']; subst.
  rewrite _compareKeys_in_range by assumption; simpl.
  destruct (keyOrder self k m <? 0); simpl; apply IH; assumption.
Qed.

Lemma minKeyStep_throws (k : key) (s : option key) (e : error) :
  minKeyStep self k s = throw e -> e = KeyHasWrongLength.
Proof.
  destruct s as [m|]; simpl; [|discriminate].
  unfold _compareKeys.
  destruct (negb _ || negb _).
  - intros H; inversion H; reflexivity.
  - rewrite _keyComparator_keyOrder; simpl.
    destruct (keyOrder self k m <? 0); discriminate.
Qed.

(** The minimum key of a document with candidate keys [k :: ks]. *)
Lemma _getMinKeyFromDoc_keysOf (doc : jsval) (k : key) (ks : list key) :
  keysOf self doc = ret (k :: ks) ->
  _getMinKeyFromDoc self doc = ret (minKeyOf self k ks).
Proof.
  intros H. unfold _getMinKeyFromDoc.
  rewrite (_generateKeysFromDoc_keysOf _ _ _ _ H); simpl.
  apply keysOf_lengths in H. inversion H; subst.
  rewrite minKeyStep_loop by assumption. reflexivity.
Qed.

Lemma _getMinKeyFromDoc_throws (doc : jsval) (e : error) :
  _getMinKeyFromDoc self doc = throw e ->
  extractionError e \/ e = KeyHasWrongLength \/
  (e = FoundNoKeysInDoc /\
   _generateKeysFromDoc self doc (minKeyStep self) None = ret None).
Proof.
  unfold _getMinKeyFromDoc.
  destruct (_generateKeysFromDoc self doc (minKeyStep self) None)
    as [[m|]|e'] eqn:Hg; simpl; [discriminate| |].
  - intros H; inversion H; auto.
  - intros H; inversion H; subst.
    rewrite _generateKeysFromDoc_unfold in Hg.
    destruct (List.length (_sortSpecParts self) =? 0)%nat.
    + inversion Hg; left; exact I.
    + destruct (valuesAndPaths (_sortSpecParts self) doc) as [st|e1] eqn:Hv;
        simpl in Hg.
      * apply feed_throws in Hg as [Hin | (k & s0 & Hc)].
        -- left; eapply keySequence_throws; eauto.
        -- right; left; eapply minKeyStep_throws; eauto.
      * inversion Hg; subst. left; eapply valuesAndPaths_throws; eauto.
Qed.

End MinKey.

Lemma _getMinKeyFromDoc_in `{E : Env} (self : sorter) (doc : jsval)
    (m : key) :
  _getMinKeyFromDoc self doc = ret m ->
  exists ks, keysOf self doc = ret ks /\ In m ks.
Proof.
  intros H. pose proof H as H'. unfold _getMinKeyFromDoc in H'.
  apply bind_ret_inv in H' as (s & Hg & _).
  destruct (_generateKeysFromDoc_ret_keysOf _ _ _ _ Hg) as (ks & Hks).
  exists ks; split; [assumption|].
  pose proof (keysOf_nonempty _ _ Hks) as Hne.
  destruct ks as [|k ks]; [contradiction|].
  rewrite (_getMinKeyFromDoc_keysOf _ _ Hks) in H. inversion H; subst.
  apply minKeyOf_in.
Qed.

Lemma _getMinKeyFromDoc_length `{E : Env} (self : sorter) (doc : jsval)
    (m : key) :
  _getMinKeyFromDoc self doc = ret m ->
  List.length m = List.length (_sortSpecParts self).
Proof.
  intros H. apply _getMinKeyFromDoc_in in H as (ks & Hks & Hin).
  apply keysOf_lengths in Hks. rewrite Forall_forall in Hks; auto.
Qed.

(** C9. When key extraction succeeds there is at least one candidate key
    (the sole key when no part went through an array, and otherwise one
    key for each known path, of which there is at least one), and the
    minimum key is one of the candidates; in no case does
    [_getMinKeyFromDoc] throw "sort selector found no keys in doc?". *)
Theorem no_keys_found_unreachable :
  forall (E : Env) (self : sorter) (doc : jsval),
    (forall ks, keysOf self doc = ret ks ->
       ks <> []
       /\ _sortSpecParts self <> []
       /\ (exists vs known,
             valuesAndPaths (_sortSpecParts self) doc = ret (vs, known)
             /\ match known with
                | None => List.length ks = 1%nat
                | Some paths =>
                    paths <> [] /\ List.length ks = List.length paths
                end)
       /\ exists m, _getMinKeyFromDoc self doc = ret m /\ In m ks)
    /\ _getMinKeyFromDoc self doc <> throw FoundNoKeysInDoc.
Proof.
  intros E self doc. split.
  - intros ks H.
    destruct (keysOf_shape _ _ H) as (vs & known & Hv & Hshape).
    pose proof (keysOf_nonempty _ _ H) as Hne.
    split; [assumption|]. split.
    { destruct (keysOf_inv _ _ H) as (_ & _ & Hp & _); assumption. }
    split.
    + exists vs, known; split; [assumption|].
      destruct known as [paths|].
      * destruct Hshape as (Hp & Hm). split; [assumption|].
        apply (f_equal (@List.length _)) in Hm.
        rewrite !length_map in Hm; assumption.
      * destruct Hshape as (k & _ & ->); reflexivity.
    + destruct ks as [|k ks]; [contradiction|].
      exists (minKeyOf self k ks). split.
      * apply _getMinKeyFromDoc_keysOf; assumption.
      * apply minKeyOf_in.
  - intros H. apply _getMinKeyFromDoc_throws in H as [H | [H | (_ & H)]];
      try discriminate; try contradiction.
    destruct (_generateKeysFromDoc_ret_keysOf _ _ _ _ H) as (ks & Hks).
    rewrite (_generateKeysFromDoc_keysOf _ _ _ _ Hks) in H.
    pose proof (keysOf_lengths _ _ Hks) as Hlen.
    destruct (keysOf_shape _ _ Hks) as (vs & known & Hv & Hshape).
    pose proof (keysOf_nonempty _ _ Hks) as Hne.
    destruct ks as [|k ks]; [contradiction|].
    simpl in H. inversion Hlen; subst.
    rewrite minKeyStep_loop in H by assumption. discriminate.
Qed.

Lemma no_keys_found_unreachable_witness :
  keysOf (E := E0) exSorter exDoc
  = ret [[JNum 0; JNum 5]; [JNum 1; JNum 3]]
  /\ exists m, _getMinKeyFromDoc (E := E0) exSorter exDoc = ret m
               /\ In m [[JNum 0; JNum 5]; [JNum 1; JNum 3]].
Proof.
  split; [reflexivity|].
  exact (proj2 (proj2 (proj2
           (proj1 (no_keys_found_unreachable E0 exSorter exDoc) _ eq_refl)))).
Defined.

(** ** The order of the key comparator *)

Lemma isOrder_refl {A : Type} (f : A -> A -> Z) (a : A) :
  isOrder f -> f a a = 0.
Proof.
  intros [Hanti _]. pose proof (Hanti a a). lia.
Qed.

Lemma isOrder_opp {A : Type} (f : A -> A -> Z) :
  isOrder f -> isOrder (fun a b => - f a b).
Proof.
  intros [Hanti Htr]. split.
  - intros a b. pose proof (Hanti a b); pose proof (Hanti b a). lia.
  - intros a b c.
    pose proof (Hanti a b); pose proof (Hanti b a);
    pose proof (Hanti b c); pose proof (Hanti c b);
    pose proof (Hanti a c); pose proof (Hanti c a);
    pose proof (Htr c b a). lia.
Qed.

Lemma isOrder_on {A B : Type} (f : B -> B -> Z) (g : A -> B) :
  isOrder f -> isOrder (fun a b => f (g a) (g b)).
Proof.
  intros [Hanti Htr]. split; intros; [apply Hanti | eapply Htr; eauto].
Qed.

(** The first non-zero result of a list of orders is an order: the
    lexicographic one. *)
Lemma firstNonZero_isOrder {A : Type} (fs : list (A -> A -> Z)) :
  Forall isOrder fs ->
  isOrder (fun a b => firstNonZero (map (fun f => f a b) fs)).
Proof.
  induction 1 as [|f fs [Hanti Htr] _ [IHanti IHtr]]; simpl.
  - split; intros; lia.
  - split.
    + intros a b.
      pose proof (Hanti a b); pose proof (Hanti b a);
      pose proof (IHanti a b).
      destruct (Z.eqb_spec (f a b) 0), (Z.eqb_spec (f b a) 0); lia.
    + intros a b c.
      pose proof (Hanti a b); pose proof (Hanti b a);
      pose proof (Hanti b c); pose proof (Hanti c b);
      pose proof (Hanti a c); pose proof (Hanti c a);
      pose proof (Htr a b c); pose proof (Htr b c a);
      pose proof (Htr c a b); pose proof (Htr a c b);
      pose proof (Htr c b a); pose proof (Htr b a c);
      pose proof (IHtr a b c).
      destruct (Z.eqb_spec (f a b) 0), (Z.eqb_spec (f b c) 0),
        (Z.eqb_spec (f a c) 0); lia.
Qed.

Section KeyOrder.
Context `{E : Env}.
Variable self : sorter.
Hypothesis cmp_order : isOrder _cmp.

Lemma fieldResult_isOrder (i : nat) :
  isOrder (fun key1 key2 => fieldResult self key1 key2 i).
Proof.
  unfold fieldResult.
  pose proof (isOrder_on (fun k : key => nth i k JUndefined) cmp_order)
    as Hon.
  destruct (nth_error (_sortSpecParts self) i) as [part|]; [|exact Hon].
  destruct (ascending part); [exact Hon|].
  exact (isOrder_opp Hon).
Qed.

Lemma keyOrder_isOrder : isOrder (keyOrder self).
Proof.
  pose proof
    (@firstNonZero_isOrder key
       (map (fun i key1 key2 => fieldResult self key1 key2 i)
            (seq 0 (List.length (_sortSpecParts self))))) as H.
  unfold keyOrder.
  assert (Hall : Forall isOrder
            (map (fun i key1 key2 => fieldResult self key1 key2 i)
                 (seq 0 (List.length (_sortSpecParts self))))).
  { apply Forall_forall. intros f Hf.
    apply in_map_iff in Hf as (i & <- & _). apply fieldResult_isOrder. }
  specialize (H Hall). destruct H as [Hanti Htr].
  split.
  - intros a b. specialize (Hanti a b).
    rewrite !map_map in Hanti. exact Hanti.
  - intros a b c. specialize (Htr a b c).
    rewrite !map_map in Htr. exact Htr.
Qed.

(** The key that [_getMinKeyFromDoc] ends with is below every key seen. *)
Lemma minKeyOf_min (ks seen : list key) (m : key) :
  In m seen ->
  (forall k, In k seen -> keyOrder self m k <= 0) ->
  forall k, In k (seen ++ ks) -> keyOrder self (minKeyOf self m ks) k <= 0.
Proof.
  destruct keyOrder_isOrder as [Hanti Htr].
  revert seen m; induction ks as [|x ks IH]; intros seen m Hm Hseen k Hk;
    simpl.
  - rewrite app_nil_r in Hk; auto.
  - apply (IH (seen ++ [x])).
    + destruct (keyOrder self x m <? 0); apply in_or_app; simpl; auto.
    + intros y Hy. apply in_app_or in Hy as [Hy|[<-|[]]].
      * specialize (Hseen y Hy).
        destruct (Z.ltb_spec (keyOrder self x m) 0); [|assumption].
        apply (Htr x m y); lia.
      * pose proof (Hanti x m); pose proof (Hanti m x).
        pose proof (Hanti x x).
        destruct (Z.ltb_spec (keyOrder self x m) 0); lia.
    + rewrite <- app_assoc; exact Hk.
Qed.

End KeyOrder.

Lemma SpecEnv_cmp_isOrder : isOrder SpecEnv.cmp.
Proof.
  unfold SpecEnv.cmp. split.
  - intros a b.
    destruct (Z.eqb_spec (SpecEnv.rank a) (SpecEnv.rank b)),
      (Z.eqb_spec (SpecEnv.rank b) (SpecEnv.rank a)); lia.
  - intros a b c.
    destruct (Z.eqb_spec (SpecEnv.rank a) (SpecEnv.rank b)),
      (Z.eqb_spec (SpecEnv.rank b) (SpecEnv.rank c)),
      (Z.eqb_spec (SpecEnv.rank a) (SpecEnv.rank c)); lia.
Qed.

(** ** Minimum-key selection *)

Lemma branchesOf_nonempty `{E : Env} (part : specPart) (doc : jsval)
    (b : branch) (branches : list branch) :
  expandArraysInBranches (makeLookupFunction (path part) doc) true
  = b :: branches ->
  branchesOf part doc = b :: branches.
Proof.
  unfold branchesOf. intros ->. reflexivity.
Qed.

(** The candidate keys of the example document, for any path lookup that
    finds [a.x] and [a.y] in the two elements of the array [a]. *)
Lemma example_keys `{E : Env} :
  expandArraysInBranches (makeLookupFunction "a.x" exDoc) true
  = [Branch (JNum 0) (Some [0%nat]); Branch (JNum 1) (Some [1%nat])] ->
  expandArraysInBranches (makeLookupFunction "a.y" exDoc) true
  = [Branch (JNum 5) (Some [0%nat]); Branch (JNum 3) (Some [1%nat])] ->
  keysOf exSorter exDoc = ret [[JNum 0; JNum 5]; [JNum 1; JNum 3]].
Proof.
  intros Hx Hy.
  apply (branchesOf_nonempty (SpecPart "a.x" true)) in Hx.
  apply (branchesOf_nonempty (SpecPart "a.y" true)) in Hy.
  unfold keysOf, _generateKeysFromDoc, valuesAndPaths, exSorter.
  cbn [_sortSpecParts List.length Nat.eqb foldM].
  unfold partStep at 1. rewrite Hx.
  match goal with
  | |- context [processBranches ?st ?bs] =>
      let r := eval vm_compute in (processBranches st bs) in
      change (processBranches st bs) with r
  end.
  cbn [bind]. unfold partStep. rewrite Hy.
  reflexivity.
Qed.

(** C1. The base comparator compares the minimum keys of the two
    documents.  The minimum key of a document is one of its candidate
    keys, and under [_compareKeys], the signed lexicographic comparator,
    it is not above any candidate key (the value comparator being an
    order).  For the document [{a: [{x: 0, y: 5}, {x: 1, y: 3}]}] and the
    spec [{'a.x': 1, 'a.y': 1}] the candidate keys are exactly [[0, 5]]
    and [[1, 3]] and the minimum key is [[0, 5]]; [[0, 3]], the field-wise
    minimum, is not a candidate. *)
Theorem min_key_is_lexicographic_minimum :
  forall (E : Env) (self : sorter) (doc1 doc2 : jsval),
    (_sortSpecParts self <> [] ->
     _getBaseComparator self doc1 doc2 =
     (key1 <- _getMinKeyFromDoc self doc1 ;;
      key2 <- _getMinKeyFromDoc self doc2 ;;
      _compareKeys self key1 key2))
    /\ (forall key1 key2,
          _getMinKeyFromDoc self doc1 = ret key1 ->
          _getMinKeyFromDoc self doc2 = ret key2 ->
          _getBaseComparator self doc1 doc2 = _compareKeys self key1 key2)
    /\ (forall m, _getMinKeyFromDoc self doc1 = ret m ->
          exists ks, keysOf self doc1 = ret ks)
    /\ (forall ks, keysOf self doc1 = ret ks ->
          exists m,
            _getMinKeyFromDoc self doc1 = ret m
            /\ In m ks
            /\ (isOrder _cmp ->
                forall k, In k ks ->
                  exists c, _compareKeys self m k = ret c /\ c <= 0))
    /\ Sorter exSpec = ret exSorter
    /\ (expandArraysInBranches (makeLookupFunction "a.x" exDoc) true
        = [Branch (JNum 0) (Some [0%nat]); Branch (JNum 1) (Some [1%nat])] ->
        expandArraysInBranches (makeLookupFunction "a.y" exDoc) true
        = [Branch (JNum 5) (Some [0%nat]); Branch (JNum 3) (Some [1%nat])] ->
        0 < _cmp (JNum 1) (JNum 0) ->
        keysOf exSorter exDoc = ret [[JNum 0; JNum 5]; [JNum 1; JNum 3]]
        /\ _getMinKeyFromDoc exSorter exDoc = ret [JNum 0; JNum 5]
        /\ ~ In [JNum 0; JNum 3] [[JNum 0; JNum 5]; [JNum 1; JNum 3]]).
Proof.
  intros E self doc1 doc2.
  assert (Hbase : _sortSpecParts self <> [] ->
            _getBaseComparator self doc1 doc2 =
            (key1 <- _getMinKeyFromDoc self doc1 ;;
             key2 <- _getMinKeyFromDoc self doc2 ;;
             _compareKeys self key1 key2)).
  { intros Hp. unfold _getBaseComparator.
    destruct (_sortSpecParts self); [contradiction | reflexivity]. }
  split; [exact Hbase|]. split; [|split; [|split; [|split]]].
  - intros key1 key2 H1 H2.
    rewrite Hbase; [rewrite H1, H2; reflexivity|].
    intros Hp. unfold _getMinKeyFromDoc, _generateKeysFromDoc in H1.
    rewrite Hp in H1; discriminate.
  - intros m H. unfold _getMinKeyFromDoc in H.
    apply bind_ret_inv in H as (s & Hg & _).
    eapply _generateKeysFromDoc_ret_keysOf; eauto.
  - intros ks H.
    pose proof (keysOf_lengths _ _ H) as Hlen.
    pose proof (keysOf_nonempty _ _ H) as Hne.
    destruct ks as [|k0 ks]; [contradiction|].
    exists (minKeyOf self k0 ks). split; [|split].
    + apply _getMinKeyFromDoc_keysOf; assumption.
    + apply minKeyOf_in.
    + intros Hord k Hk. exists (keyOrder self (minKeyOf self k0 ks) k).
      split.
      * apply _compareKeys_in_range.
        -- pose proof (minKeyOf_in self ks k0) as Hin.
           rewrite Forall_forall in Hlen; auto.
        -- rewrite Forall_forall in Hlen; auto.
      * apply (minKeyOf_min self Hord ks [k0] k0); simpl; auto.
        intros y [<-|[]].
        rewrite (isOrder_refl _ (keyOrder_isOrder self Hord)); lia.
  - reflexivity.
  - intros Hx Hy H10.
    pose proof (example_keys Hx Hy) as Hk.
    split; [assumption|]. split.
    + rewrite (_getMinKeyFromDoc_keysOf _ _ Hk).
      cbn [minKeyOf]. unfold keyOrder, fieldResult, exSorter.
      cbn [_sortSpecParts List.length seq map nth_error nth ascending
           firstNonZero].
      destruct (Z.eqb_spec (_cmp (JNum 1) (JNum 0)) 0); [lia|].
      destruct (Z.ltb_spec (_cmp (JNum 1) (JNum 0)) 0); [lia|].
      reflexivity.
    + simpl. intros [H|[H|[]]]; discriminate.
Qed.

Lemma min_key_is_lexicographic_minimum_witness :
  keysOf (E := E0) exSorter exDoc = ret [[JNum 0; JNum 5]; [JNum 1; JNum 3]]
  /\ _getMinKeyFromDoc (E := E0) exSorter exDoc = ret [JNum 0; JNum 5]
  /\ exists m,
       _getMinKeyFromDoc (E := E0) exSorter exDoc = ret m
       /\ In m [[JNum 0; JNum 5]; [JNum 1; JNum 3]]
       /\ forall k, In k [[JNum 0; JNum 5]; [JNum 1; JNum 3]] ->
            exists c, _compareKeys (E := E0) exSorter m k = ret c /\ c <= 0.
Proof.
  pose proof (min_key_is_lexicographic_minimum E0 exSorter exDoc exDoc)
    as (_ & _ & _ & Hmin & _ & Hex).
  destruct (Hex eq_refl eq_refl eq_refl) as (Hk & Hm & _).
  split; [exact Hk|]. split; [exact Hm|].
  destruct (Hmin _ Hk) as (m & Hm' & Hin & Hle).
  exists m. split; [exact Hm'|]. split; [exact Hin|].
  exact (Hle SpecEnv_cmp_isOrder).
Defined.

(** ** The empty-field fallback *)

Lemma nth_error_middle {A : Type} (l1 l2 : list A) (x : A) :
  nth_error (l1 ++ x :: l2) (List.length l1) = Some x.
Proof.
  induction l1; simpl; auto.
Qed.

Lemma processBranches_null (vs : list (jsobj jsval))
    (known : option (jsobj bool)) :
  processBranches (vs, known) [Branch JNull None]
  = ret (vs ++ [[(EmptyString, JNull)]], known).
Proof.
  destruct known; reflexivity.
Qed.

Section Fallback.
Context `{E : Env}.
Variables (self : sorter) (doc : jsval) (i : nat) (part : specPart).
Hypothesis part_i : nth_error (_sortSpecParts self) i = Some part.
Hypothesis no_branch :
  expandArraysInBranches (makeLookupFunction (path part) doc) true = [].

Lemma branchesOf_null : branchesOf part doc = [Branch JNull None].
Proof.
  unfold branchesOf. rewrite no_branch. reflexivity.
Qed.

Lemma valuesAndPaths_null (vs : list (jsobj jsval))
    (known : option (jsobj bool)) :
  valuesAndPaths (_sortSpecParts self) doc = ret (vs, known) ->
  nth_error vs i = Some [(EmptyString, JNull)].
Proof.
  destruct (nth_error_split _ _ part_i) as (pre & post & Hparts & Hlen).
  unfold valuesAndPaths. rewrite Hparts, foldM_app.
  intros H. apply bind_ret_inv in H as ([vs1 known1] & Hpre & H).
  simpl in H. unfold partStep at 1 in H.
  rewrite branchesOf_null, processBranches_null in H. simpl in H.
  apply valuesAndPaths_inv in Hpre as (Hl1 & _).
  apply valuesAndPaths_inv in H as (_ & (more & ->) & _).
  simpl in Hl1. rewrite <- app_assoc. simpl.
  rewrite <- Hlen, <- Hl1. apply nth_error_middle.
Qed.

Lemma keysOf_null (ks : list key) (k : key) :
  keysOf self doc = ret ks -> In k ks -> nth_error k i = Some JNull.
Proof.
  intros H Hk. destruct (keysOf_inv _ _ H) as (vs & known & _ & Hv & Hs).
  apply valuesAndPaths_null in Hv.
  assert (Hin : In (ret k) (keySequence vs known))
    by (rewrite Hs; apply in_map; assumption).
  destruct known as [paths|]; simpl in Hin.
  - apply in_map_iff in Hin as (kv & Hin & _).
    destruct (mapM_nth_error _ _ _ Hin Hv) as (y & Hy & Hn).
    simpl in Hy. inversion Hy; subst. exact Hn.
  - destruct Hin as [Hin|[]].
    destruct (mapM_nth_error _ _ _ Hin Hv) as (y & Hy & Hn).
    simpl in Hy. inversion Hy; subst. exact Hn.
Qed.

Lemma _getMinKeyFromDoc_null (m : key) :
  _getMinKeyFromDoc self doc = ret m -> nth_error m i = Some JNull.
Proof.
  intros H. apply _getMinKeyFromDoc_in in H as (ks & Hks & Hin).
  eapply keysOf_null; eassumption.
Qed.

End Fallback.

(** C6. When the path lookup of a part finds no branch in a document,
    the part's branches are the single branch with value [null] and no
    array indices; every candidate key, and so the minimum key, of the
    document then has [null] at the position of that part.  For two
    documents that both lack the field, the comparator of that field
    compares [null] with [null]: its answer is 0 as soon as the value
    comparator finds [null] equal to itself. *)
Theorem empty_field_fallback :
  forall (E : Env) (self : sorter) (i : nat) (part : specPart)
         (doc1 doc2 : jsval)
         (Hpart : nth_error (_sortSpecParts self) i = Some part)
         (H1 : expandArraysInBranches
                 (makeLookupFunction (path part) doc1) true = [])
         (H2 : expandArraysInBranches
                 (makeLookupFunction (path part) doc2) true = []),
    branchesOf part doc1 = [Branch JNull None]
    /\ (forall ks k, keysOf self doc1 = ret ks -> In k ks ->
          nth_error k i = Some JNull)
    /\ (forall key1 key2,
          _getMinKeyFromDoc self doc1 = ret key1 ->
          _getMinKeyFromDoc self doc2 = ret key2 ->
          nth_error key1 i = Some JNull
          /\ nth_error key2 i = Some JNull
          /\ (_cmp JNull JNull = 0 ->
              _keyFieldComparator self i key1 key2 = ret 0
              /\ (_sortSpecParts self = [part] ->
                  _getBaseComparator self doc1 doc2 = ret 0))).
Proof.
  intros E self i part doc1 doc2 Hpart H1 H2.
  split; [apply branchesOf_null; assumption|].
  split;
    [intros ks k Hks Hk;
     exact (@keysOf_null E self doc1 i part Hpart H1 ks k Hks Hk)|].
  intros key1 key2 Hm1 Hm2.
  pose proof (@_getMinKeyFromDoc_null E self doc1 i part Hpart H1 key1 Hm1)
    as Hn1.
  pose proof (@_getMinKeyFromDoc_null E self doc2 i part Hpart H2 key2 Hm2)
    as Hn2.
  split; [assumption|]. split; [assumption|].
  intros Hnull.
  assert (Hf : _keyFieldComparator self i key1 key2 = ret 0).
  { unfold _keyFieldComparator. rewrite Hpart.
    rewrite (nth_error_nth _ _ JUndefined Hn1).
    rewrite (nth_error_nth _ _ JUndefined Hn2).
    rewrite Hnull. destruct (ascending part); reflexivity. }
  split; [exact Hf|].
  intros Hparts.
  assert (Hi : i = 0%nat).
  { rewrite Hparts in Hpart. destruct i as [|[|i]]; simpl in Hpart;
      [reflexivity | discriminate | discriminate]. }
  subst i.
  unfold _getBaseComparator. rewrite Hparts. simpl.
  rewrite Hm1, Hm2. simpl.
  rewrite _compareKeys_in_range
    by (eapply _getMinKeyFromDoc_length; eassumption).
  rewrite _keyFieldComparator_in_range in Hf by (rewrite Hparts; simpl; lia).
  inversion Hf as [Hf0].
  unfold keyOrder. rewrite Hparts. simpl. rewrite Hf0. reflexivity.
Qed.

Lemma empty_field_fallback_witness :
  _getBaseComparator (E := E0) (MkSorter [SpecPart "a" true])
    (JObj [("a", JArr []); ("b", JNum 1)]) (JObj [("a", JArr [])]) = ret 0.
Proof.
  pose proof (@empty_field_fallback E0 (MkSorter [SpecPart "a" true]) 0%nat
                (SpecPart "a" true)
                (JObj [("a", JArr []); ("b", JNum 1)]) (JObj [("a", JArr [])])
                eq_refl eq_refl eq_refl) as (_ & _ & H).
  destruct (H [JNull] [JNull] eq_refl eq_refl) as (_ & _ & H0).
  exact (proj2 (H0 eq_refl) eq_refl).
Defined.

(** ** Parallel arrays *)

Section ObjFacts.
Context {V : Type}.

Lemma has_false_set (o : jsobj V) (k : string) (v : V) :
  Obj.has o k = false -> Obj.set o k v = o ++ [(k, v)].
Proof.
  unfold Obj.has. induction o as [|[k' v'] o IH]; simpl; [reflexivity|].
  destruct (String.eqb k' k); [discriminate|].
  intros H. rewrite IH by assumption. reflexivity.
Qed.

Lemma has_app_one (o : jsobj V) (k q : string) (v : V) :
  Obj.has (o ++ [(k, v)]) q = Obj.has o q || String.eqb k q.
Proof.
  unfold Obj.has. induction o as [|[k' v'] o IH]; simpl.
  - destruct (String.eqb k q); reflexivity.
  - destruct (String.eqb k' q); [reflexivity | exact IH].
Qed.

Lemma has_true_keys (o : jsobj V) (k : string) :
  Obj.has o k = true -> In k (Obj.keys o).
Proof.
  unfold Obj.has. induction o as [|[k' v'] o IH]; simpl; [discriminate|].
  destruct (String.eqb_spec k' k); auto.
Qed.
End ObjFacts.

Lemma pathFromIndices_nonempty (indices : list nat) :
  String.eqb (pathFromIndices indices) EmptyString = false.
Proof.
  unfold pathFromIndices.
  destruct (join "," (map string_of_nat indices)); reflexivity.
Qed.

Lemma pathKeys_length (branches : list branch) :
  allIndexed branches = true ->
  List.length (pathKeys branches) = List.length branches.
Proof.
  induction branches as [|[v [idx|]] branches IH]; simpl; auto; discriminate.
Qed.

(** The loop over branches that all carry array indices, on distinct
    paths, when the paths of an earlier part are known: it stops with
    "cannot index parallel arrays" at the first path that is not known,
    and otherwise records every branch. *)
Lemma branchLoop_known (known : jsobj bool) (n : nat)
    (branches : list branch) (u : bool) (acc : jsobj jsval) :
  allIndexed branches = true ->
  NoDup (pathKeys branches) ->
  (forall p, In p (pathKeys branches) -> Obj.has acc p = false) ->
  if forallb (Obj.has known) (pathKeys branches)
  then exists u' values,
         foldM (branchStep n (Some known)) branches (u, acc)
         = ret (u', values)
         /\ Obj.size values = (Obj.size acc + List.length branches)%nat
         /\ Obj.has values EmptyString = Obj.has acc EmptyString
  else foldM (branchStep n (Some known)) branches (u, acc)
       = throw CannotIndexParallelArrays.
Proof.
  revert u acc; induction branches as [|[v [idx|]] branches IH];
    intros u acc Hall Hnd Hnew; simpl in Hall |- *; try discriminate.
  - exists u, acc. rewrite Nat.add_0_r; auto.
  - simpl in Hnd, Hnew. inversion Hnd as [|? ? Hnotin Hnd']; subst.
    assert (Hstep :
              branchStep n (Some known) (u, acc) (Branch v (Some idx))
              = if Obj.has known (pathFromIndices idx)
                then ret (true, acc ++ [(pathFromIndices idx, v)])
                else throw CannotIndexParallelArrays).
    { unfold branchStep; simpl.
      rewrite (Hnew _ (or_introl eq_refl)).
      rewrite (has_false_set _ _ _ (Hnew _ (or_introl eq_refl))).
      destruct (Obj.has known (pathFromIndices idx)); reflexivity. }
    rewrite Hstep.
    destruct (Obj.has known (pathFromIndices idx)); simpl; [|reflexivity].
    assert (Hnew' : forall p, In p (pathKeys branches) ->
              Obj.has (acc ++ [(pathFromIndices idx, v)]) p = false).
    { intros p Hp. rewrite has_app_one, (Hnew p (or_intror Hp)); simpl.
      destruct (String.eqb_spec (pathFromIndices idx) p); [|reflexivity].
      subst p; contradiction. }
    specialize (IH true _ Hall Hnd' Hnew').
    destruct (forallb (Obj.has known) (pathKeys branches)); [|exact IH].
    destruct IH as (u' & values & Hf & Hs & Hh).
    exists u', values. split; [exact Hf|]. split.
    + rewrite Hs. unfold Obj.size. rewrite length_app; simpl. lia.
    + rewrite Hh, has_app_one, pathFromIndices_nonempty.
      apply orb_false_r.
Qed.

(** A part whose branches all carry array indices, on distinct paths
    that are not exactly the known paths, makes the first loop throw. *)
Lemma processBranches_mismatch (vs : list (jsobj jsval)) (known : jsobj bool)
    (branches : list branch) :
  allIndexed branches = true ->
  NoDup (pathKeys branches) ->
  ~ (forall p, In p (pathKeys branches) <-> In p (Obj.keys known)) ->
  exists e,
    processBranches (vs, Some known) branches = throw e
    /\ ParallelArrayMismatch e.
Proof.
  intros Hall Hnd Hneq.
  pose proof (@branchLoop_known known (List.length branches) branches false
                [] Hall Hnd (fun p _ => eq_refl)) as Hloop.
  unfold processBranches. cbv beta iota.
  destruct (forallb (Obj.has known) (pathKeys branches)) eqn:Hfa.
  - destruct Hloop as (u' & values & -> & Hs & Hh). simpl.
    simpl in Hs, Hh. rewrite Hh, Hs. simpl.
    destruct (Nat.eqb_spec (Obj.size known) (List.length branches))
      as [Heq|Hne]; simpl.
    + exfalso. apply Hneq. intros p.
      rewrite forallb_forall in Hfa.
      assert (Hincl : incl (pathKeys branches) (Obj.keys known)).
      { intros q Hq. apply has_true_keys, Hfa, Hq. }
      split; [apply Hincl|].
      apply (NoDup_length_incl Hnd); [|exact Hincl].
      rewrite pathKeys_length by assumption.
      unfold Obj.keys. rewrite length_map. unfold Obj.size in Heq. lia.
    + exists CannotIndexParallelArraysBang; split; [reflexivity | exact I].
  - rewrite Hloop. simpl.
    exists CannotIndexParallelArrays; split; [reflexivity | exact I].
Qed.

Lemma has_set {V : Type} (o : jsobj V) (k q : string) (v : V) :
  Obj.has (Obj.set o k v) q = Obj.has o q || String.eqb k q.
Proof.
  unfold Obj.has. induction o as [|[k' v'] o IH]; simpl.
  - destruct (String.eqb k q); reflexivity.
  - destruct (String.eqb_spec k' k) as [->|Hk]; simpl.
    + destruct (String.eqb k q); [reflexivity|].
      rewrite orb_false_r; reflexivity.
    + destruct (String.eqb k' q); [reflexivity | exact IH].
Qed.

(** When the loop over the branches of a part ends without an error,
    either there is at most one branch, or all of them carry array
    indices; the path keys are distinct and were not yet recorded. *)
Lemma branchLoop_ret_inv (known : option (jsobj bool)) (n : nat)
    (branches : list branch) (st st' : bool * jsobj jsval) :
  foldM (branchStep n known) branches st = ret st' ->
  ((n <= 1)%nat \/ allIndexed branches = true)
  /\ NoDup (pathKeys branches)
  /\ (forall p, In p (pathKeys branches) -> Obj.has (snd st) p = false).
Proof.
  revert st; induction branches as [|[v [idx|]] branches IH];
    intros [u acc] H; simpl in H |- *.
  - split; [auto|]. split; [constructor | intros p []].
  - apply bind_ret_inv in H as (st1 & Hstep & H).
    destruct (IH _ H) as (Hall & Hnd & Hnew).
    unfold branchStep in Hstep; simpl in Hstep.
    destruct (Obj.has acc (pathFromIndices idx)) eqn:Hacc; [discriminate|].
    assert (Hst1 : snd st1 = Obj.set acc (pathFromIndices idx) v).
    { destruct known as [kn|].
      - destruct (negb (Obj.has kn (pathFromIndices idx))); [discriminate|].
        inversion Hstep; reflexivity.
      - inversion Hstep; reflexivity. }
    rewrite Hst1 in Hnew.
    split; [exact Hall|]. split.
    + constructor; [|exact Hnd].
      intros Hin. specialize (Hnew _ Hin).
      rewrite has_set, String.eqb_refl, orb_true_r in Hnew. discriminate.
    + intros p [<-|Hp]; [exact Hacc|].
      specialize (Hnew _ Hp). rewrite has_set in Hnew.
      apply orb_false_iff in Hnew as [Hnew _]. exact Hnew.
  - apply bind_ret_inv in H as (st1 & Hstep & H).
    destruct (IH _ H) as (Hall & Hnd & Hnew).
    unfold branchStep in Hstep; simpl in Hstep.
    destruct (Nat.ltb_spec 1 n); [discriminate|].
    inversion Hstep; subst st1. simpl in Hnew.
    split; [left; lia|]. split; [exact Hnd|].
    intros p Hp. specialize (Hnew _ Hp). rewrite has_set in Hnew.
    apply orb_false_iff in Hnew as [Hnew _]. exact Hnew.
Qed.

Lemma processBranches_branchError
    (st : list (jsobj jsval) * option (jsobj bool))
    (branches : list branch) (e : error) :
  processBranches st branches = throw e -> branchError e.
Proof.
  unfold processBranches. destruct st as [vs known].
  destruct (foldM (branchStep (List.length branches) known) branches
                  (false, [])) as [[u values]|e'] eqn:Hloop; simpl.
  - destruct known as [k0|].
    + destruct (negb (Obj.has values EmptyString) && _); [|discriminate].
      intros H; inversion H; exact I.
    + destruct u; discriminate.
  - intros H; inversion H; subst.
    eapply foldM_throws; [|exact Hloop].
    intros [u acc] b e1. unfold branchStep.
    destruct (arrayIndices b) as [indices|].
    + destruct (Obj.has acc (pathFromIndices indices)).
      * intros H1; inversion H1; exact I.
      * destruct known as [kn|]; [|discriminate].
        destruct (negb (Obj.has kn (pathFromIndices indices)));
          [|discriminate].
        intros H1; inversion H1; exact I.
    + destruct (1 <? List.length branches)%nat; [|discriminate].
      intros H1; inversion H1; exact I.
Qed.

(** Whatever the branches of the part are: when some of them carry array
    indices and their path keys are not exactly the known paths, the
    first loop throws. *)
Lemma processBranches_mismatch_any (vs : list (jsobj jsval))
    (known : jsobj bool) (branches : list branch) :
  pathKeys branches <> [] ->
  ~ (forall p, In p (pathKeys branches) <-> In p (Obj.keys known)) ->
  exists e,
    processBranches (vs, Some known) branches = throw e /\ branchError e.
Proof.
  intros Hne Hneq.
  destruct (processBranches (vs, Some known) branches) as [st|e] eqn:Hp.
  - exfalso. pose proof Hp as Hp'. unfold processBranches in Hp'.
    cbv beta iota in Hp'.
    apply bind_ret_inv in Hp' as (st1 & Hloop & _).
    apply branchLoop_ret_inv in Hloop as (Hall & Hnd & _).
    assert (Hall' : allIndexed branches = true).
    { destruct Hall as [Hlen|Hall]; [|exact Hall].
      destruct branches as [|[v [idx|]] [|b branches]]; simpl in *;
        try reflexivity; try contradiction; lia. }
    destruct (processBranches_mismatch vs known branches Hall' Hnd Hneq)
      as (e & He & _).
    rewrite He in Hp; discriminate.
  - exists e; split; [reflexivity|].
    eapply processBranches_branchError; eauto.
Qed.

(** Key extraction on the parallel arrays [{a: [1, 2], b: [3, 4, 5]}]. *)
Lemma parallel_example `{E : Env} {S : Type} (cb : key -> S -> result S)
    (s : S) :
  expandArraysInBranches (makeLookupFunction "a" parDoc) true
  = [Branch (JNum 1) (Some [0%nat]); Branch (JNum 2) (Some [1%nat])] ->
  expandArraysInBranches (makeLookupFunction "b" parDoc) true
  = [Branch (JNum 3) (Some [0%nat]); Branch (JNum 4) (Some [1%nat]);
     Branch (JNum 5) (Some [2%nat])] ->
  _generateKeysFromDoc parSorter parDoc cb s = throw CannotIndexParallelArrays.
Proof.
  intros Ha Hb.
  apply (branchesOf_nonempty (SpecPart "a" true)) in Ha.
  apply (branchesOf_nonempty (SpecPart "b" true)) in Hb.
  unfold _generateKeysFromDoc, valuesAndPaths, parSorter.
  cbn [_sortSpecParts List.length Nat.eqb foldM].
  unfold partStep at 1. rewrite Ha.
  match goal with
  | |- context [processBranches ?st ?bs] =>
      let r := eval vm_compute in (processBranches st bs) in
      change (processBranches st bs) with r
  end.
  cbn [bind]. unfold partStep. rewrite Hb.
  reflexivity.
Qed.

(** C7. When the parts before a part have established the known paths,
    and that part's branches all carry array indices, on distinct path
    keys whose set is not the set of the known paths, key extraction
    throws one of the two "cannot index parallel arrays" errors.  With
    no assumption on the branches but that some carry array indices, a
    set of path keys that is not the known one still makes extraction
    throw, possibly "multiple branches but no array used?" or "duplicate
    path" first.  The spec [{a: 1, b: 1}] on the document
    [{a: [1, 2], b: [3, 4, 5]}] throws "cannot index parallel arrays". *)
Theorem parallel_arrays_rejected :
  forall (E : Env),
    (forall (self : sorter) (doc : jsval) (pre post : list specPart)
            (part : specPart) (vs : list (jsobj jsval)) (known : jsobj bool)
            (S : Type) (cb : key -> S -> result S) (s : S),
        _sortSpecParts self = pre ++ part :: post ->
        valuesAndPaths pre doc = ret (vs, Some known) ->
        let branches :=
          expandArraysInBranches (makeLookupFunction (path part) doc) true in
        pathKeys branches <> [] ->
        ~ (forall p, In p (pathKeys branches) <-> In p (Obj.keys known)) ->
        (exists e,
           _generateKeysFromDoc self doc cb s = throw e /\ branchError e)
        /\ (allIndexed branches = true ->
            NoDup (pathKeys branches) ->
            exists e,
              _generateKeysFromDoc self doc cb s = throw e
              /\ ParallelArrayMismatch e))
    /\ Sorter parSpec = ret parSorter
    /\ (expandArraysInBranches (makeLookupFunction "a" parDoc) true
        = [Branch (JNum 1) (Some [0%nat]); Branch (JNum 2) (Some [1%nat])] ->
        expandArraysInBranches (makeLookupFunction "b" parDoc) true
        = [Branch (JNum 3) (Some [0%nat]); Branch (JNum 4) (Some [1%nat]);
           Branch (JNum 5) (Some [2%nat])] ->
        keysOf parSorter parDoc = throw CannotIndexParallelArrays
        /\ _getMinKeyFromDoc parSorter parDoc
           = throw CannotIndexParallelArrays
        /\ forall doc2,
             _getBaseComparator parSorter parDoc doc2
             = throw CannotIndexParallelArrays).
Proof.
  intros E. split; [|split].
  - intros self doc pre post part vs known S cb s Hparts Hpre branches
           Hne Hneq.
    assert (Hb : branchesOf part doc = branches).
    { subst branches. unfold branchesOf.
      destruct (expandArraysInBranches (makeLookupFunction (path part) doc)
                  true); [contradiction Hne; reflexivity | reflexivity]. }
    assert (Hgen : forall e,
              processBranches (vs, Some known) branches = throw e ->
              _generateKeysFromDoc self doc cb s = throw e).
    { intros e He.
      unfold _generateKeysFromDoc, valuesAndPaths. rewrite Hparts.
      destruct (List.length (pre ++ part :: post) =? 0)%nat eqn:Hlen.
      { apply Nat.eqb_eq in Hlen. rewrite length_app in Hlen; simpl in Hlen.
        lia. }
      rewrite foldM_app. unfold valuesAndPaths in Hpre. rewrite Hpre.
      simpl. unfold partStep at 1. rewrite Hb, He. reflexivity. }
    split.
    + destruct (processBranches_mismatch_any vs known branches Hne Hneq)
        as (e & He & Hk).
      exists e; split; [apply Hgen; exact He | exact Hk].
    + intros Hall Hnd.
      destruct (processBranches_mismatch vs known branches Hall Hnd Hneq)
        as (e & He & Hk).
      exists e; split; [apply Hgen; exact He | exact Hk].
  - reflexivity.
  - intros Ha Hb. split; [|split].
    + apply parallel_example; assumption.
    + unfold _getMinKeyFromDoc.
      rewrite parallel_example by assumption. reflexivity.
    + intros doc2. unfold _getBaseComparator, _getMinKeyFromDoc. simpl.
      rewrite parallel_example by assumption. reflexivity.
Qed.

Lemma parallel_arrays_rejected_witness :
  exists e,
    keysOf (E := E0) parSorter parDoc = throw e /\ ParallelArrayMismatch e.
Proof.
  refine (proj2 (proj1 (parallel_arrays_rejected E0) parSorter parDoc
            [SpecPart "a" true] [] (SpecPart "b" true)
            [[("0,", JNum 1); ("1,", JNum 2)]]
            [("0,", true); ("1,", true)]
            (list key) (fun k acc => ret (acc ++ [k])) []
            eq_refl eq_refl _ _) eq_refl _).
  - discriminate.
  - intros H. destruct (proj1 (H "2,")) as [H'|[H'|[]]].
    + simpl; auto.
    + discriminate H'.
    + discriminate H'.
  - repeat constructor; simpl; intuition discriminate.
Defined.

(** * Further properties of the sorter *)

(** ** Comparator composition *)

(** X1. Composing the concatenation of two comparator lists is composing
    the first list and, only when that answers 0, the second: a non-zero
    answer or an error of the first list is the result, and the second
    list is not run. *)
Theorem composeComparators_app :
  forall (A : Type) (cs1 cs2 : list (A -> A -> result Z)) (a b : A),
    composeComparators (cs1 ++ cs2) a b =
    (c <- composeComparators cs1 a b ;;
     if negb (c =? 0) then ret c else composeComparators cs2 a b).
Proof.
  intros A cs1 cs2 a b. induction cs1 as [|c cs1 IH]; simpl; [reflexivity|].
  destruct (c a b) as [r|e]; simpl; [|reflexivity].
  destruct (r =? 0) eqn:Hr; simpl; [exact IH|].
  rewrite Hr; reflexivity.
Qed.



(** ** The constructor *)

Lemma addSpecPart_ret_inv (parts parts' : list specPart) (p : jsval)
    (asc : bool) :
  addSpecPart parts p asc = ret parts' ->
  exists s, p = JStr s /\ badPath s = false
            /\ parts' = parts ++ [SpecPart s asc].
Proof.
  unfold addSpecPart, badPath.
  destruct (negb (truthy p)) eqn:Ht; [discriminate|].
  destruct p; try discriminate.
  simpl in Ht. destruct (startsWithDollar s) eqn:Hd; [discriminate|].
  intros H; inversion H; subst. exists s.
  apply negb_false_iff, negb_true_iff in Ht. rewrite Ht. auto.
Qed.


Lemma specStep_ret_inv `{E : Env} :
  (forall parts parts' elem,
      arraySpecStep parts elem = ret parts' ->
      exists s asc, badPath s = false /\ parts' = parts ++ [SpecPart s asc])
  /\ (forall parts parts' kv,
        objectSpecStep parts kv = ret parts' ->
        exists s asc, badPath s = false /\ parts' = parts ++ [SpecPart s asc]).
Proof.
  split.
  - intros parts parts' elem. unfold arraySpecStep.
    destruct (String.eqb (typeof elem) "string").
    + intros H. apply addSpecPart_ret_inv in H as (s & _ & Hb & ->); eauto.
    + intros H. apply bind_ret_inv in H as (p & _ & H).
      apply bind_ret_inv in H as (d & _ & H).
      apply addSpecPart_ret_inv in H as (s & _ & Hb & ->); eauto.
  - intros parts parts' [k v]. simpl. intros H.
    apply addSpecPart_ret_inv in H as (s & _ & Hb & ->); eauto.
Qed.

Lemma specLoop_ret_inv {A : Type}
    (step : list specPart -> A -> result (list specPart)) (l : list A)
    (parts parts' : list specPart) :
  (forall parts parts' x,
      step parts x = ret parts' ->
      exists s asc, badPath s = false /\ parts' = parts ++ [SpecPart s asc]) ->
  foldM step l parts = ret parts' ->
  exists added,
    parts' = parts ++ added
    /\ List.length added = List.length l
    /\ Forall (fun part => badPath (path part) = false) added.
Proof.
  intros Hstep. revert parts; induction l as [|x l IH]; simpl; intros parts H.
  - inversion H; subst. exists []. rewrite app_nil_r. auto.
  - apply bind_ret_inv in H as (parts1 & Hx & H).
    apply Hstep in Hx as (s & asc & Hb & ->).
    destruct (IH _ H) as (added & -> & Hlen & Hall).
    exists (SpecPart s asc :: added). rewrite <- app_assoc. simpl.
    repeat split; auto.
Qed.

(** X3. Every sorter that the constructor returns, whatever the
    specification, has only paths that are non-empty and do not begin with
    [$], and has one part for each element of the array, or each entry of
    the mapping, in the specification. *)
Theorem Sorter_parts_valid :
  forall (E : Env) (spec : jsval) (s : sorter) (Hs : Sorter spec = ret s),
    Forall (fun p => badPath p = false) (_getPaths s)
    /\ List.length (_sortSpecParts s)
       = if instanceofArray spec then List.length (arrayElements spec)
         else List.length (_each_entries spec).
Proof.
  intros E spec s Hs. unfold Sorter in Hs.
  apply bind_ret_inv in Hs as (parts & Hloop & Hs). inversion Hs; subst s.
  unfold _getPaths; simpl.
  destruct specStep_ret_inv as [Harr Hobj].
  assert (Hgoal : forall added n,
            parts = [] ++ added -> List.length added = n ->
            Forall (fun part => badPath (path part) = false) added ->
            Forall (fun p => badPath p = false) (map path parts)
            /\ List.length parts = n).
  { intros added n -> Hlen Hall. simpl. split; [|exact Hlen].
    apply Forall_map. exact Hall. }
  destruct (instanceofArray spec).
  - destruct (specLoop_ret_inv _ _ _ Harr Hloop) as (added & Hp & Hlen & Hall).
    eapply Hgoal; eauto.
  - destruct (String.eqb (typeof spec) "object"); [|discriminate].
    destruct (specLoop_ret_inv _ _ _ Hobj Hloop) as (added & Hp & Hlen & Hall).
    eapply Hgoal; eauto.
Qed.

Lemma Sorter_parts_valid_witness :
  Forall (fun p => badPath p = false) (_getPaths abSorter)
  /\ List.length (_sortSpecParts abSorter) = 2%nat.
Proof.
  exact (Sorter_parts_valid E0 specMixed eq_refl).
Defined.



(** ** Directions *)

Lemma firstNonZero_opp (l : list Z) :
  firstNonZero (map Z.opp l) = - firstNonZero l.
Proof.
  induction l as [|c l IH]; simpl; [reflexivity|].
  destruct (Z.eqb_spec c 0) as [->|Hc]; simpl; [exact IH|].
  destruct (Z.eqb_spec (- c) 0); [lia | reflexivity].
Qed.

Lemma keyOrder_flipDirections `{E : Env} (self : sorter) (key1 key2 : key) :
  keyOrder (flipDirections self) key1 key2 = - keyOrder self key1 key2.
Proof.
  unfold keyOrder. rewrite <- firstNonZero_opp, map_map.
  unfold flipDirections at 2; simpl. rewrite length_map.
  f_equal. apply map_ext_in. intros i Hi. apply in_seq in Hi.
  unfold fieldResult, flipDirections; simpl.
  rewrite nth_error_map.
  destruct (nth_error (_sortSpecParts self) i) as [part|] eqn:Hn; simpl.
  - destruct (ascending part); simpl; lia.
  - apply nth_error_None in Hn. lia.
Qed.

(** X5. Reversing the direction of every part negates the key
    comparator: on the same two keys, [_compareKeys] of the reversed sorter
    returns the opposite number, and throws "Key has wrong length" on the
    same keys. *)
Theorem compareKeys_flipDirections :
  forall (E : Env) (self : sorter) (key1 key2 : key),
    _compareKeys (flipDirections self) key1 key2 =
    (c <- _compareKeys self key1 key2 ;; ret (- c)).
Proof.
  intros E self key1 key2. unfold _compareKeys.
  unfold flipDirections at 1 2; simpl. rewrite length_map.
  destruct (negb _ || negb _); simpl; [reflexivity|].
  rewrite !_keyComparator_keyOrder, keyOrder_flipDirections. reflexivity.
Qed.

(** ** What key extraction keeps true *)

Section ObjMore.
Context {V : Type}.

Lemma get_set (o : list (string * V)) (k q : string) (v : V) :
  Obj.get (Obj.set o k v) q
  = if String.eqb k q then Some v else Obj.get o q.
Proof.
  induction o as [|[k' v'] o IH]; simpl; [reflexivity|].
  destruct (String.eqb_spec k' k) as [->|Hk]; simpl.
  - destruct (String.eqb k q); reflexivity.
  - rewrite IH. destruct (String.eqb_spec k' q) as [->|Hq]; [|reflexivity].
    destruct (String.eqb_spec k q); [congruence | reflexivity].
Qed.

Lemma keys_has (o : list (string * V)) (k : string) :
  In k (Obj.keys o) -> Obj.has o k = true.
Proof.
  unfold Obj.has. induction o as [|[k' v'] o IH]; simpl; [intros []|].
  destruct (String.eqb_spec k' k); [reflexivity|].
  intros [H|H]; [contradiction | auto].
Qed.

Lemma keys_set (o : list (string * V)) (k : string) (v : V) :
  Obj.keys (Obj.set o k v)
  = if Obj.has o k then Obj.keys o else Obj.keys o ++ [k].
Proof.
  unfold Obj.has. induction o as [|[k' v'] o IH]; simpl; [reflexivity|].
  destruct (String.eqb k' k); simpl; [reflexivity|].
  rewrite IH. destruct (Obj.get o k); reflexivity.
Qed.

Lemma NoDup_keys_set (o : list (string * V)) (k : string) (v : V) :
  NoDup (Obj.keys o) -> NoDup (Obj.keys (Obj.set o k v)).
Proof.
  intros H. rewrite keys_set. destruct (Obj.has o k) eqn:Hk; [exact H|].
  apply NoDup_app; [exact H | repeat constructor; intros [] |].
  intros x Hx [<-|[]]. apply keys_has in Hx. congruence.
Qed.

End ObjMore.

Lemma branchStep_ret_inv (n : nat) (known : option (list (string * bool)))
    (u u' : bool) (acc acc' : list (string * jsval)) (b : branch) :
  branchStep n known (u, acc) b = ret (u', acc') ->
  match arrayIndices b with
  | None => u' = u /\ acc' = Obj.set acc EmptyString (value b)
  | Some idx =>
      u' = true
      /\ Obj.has acc (pathFromIndices idx) = false
      /\ acc' = Obj.set acc (pathFromIndices idx) (value b)
      /\ match known with
         | Some kn => Obj.has kn (pathFromIndices idx) = true
         | None => True
         end
  end.
Proof.
  unfold branchStep. destruct (arrayIndices b) as [idx|].
  - destruct (Obj.has acc (pathFromIndices idx)) eqn:Hacc; [discriminate|].
    destruct known as [kn|].
    + destruct (Obj.has kn (pathFromIndices idx)); simpl; [|discriminate].
      intros H; inversion H; auto.
    + intros H; inversion H; auto.
  - destruct (1 <? n)%nat; [discriminate|].
    intros H; inversion H; auto.
Qed.

Lemma pathFromIndices_neq_empty (idx : list nat) :
  pathFromIndices idx <> EmptyString.
Proof.
  intros H. pose proof (pathFromIndices_nonempty idx) as Hn.
  rewrite H in Hn. discriminate.
Qed.

(** The loop over the branches of one part, when it ends without an
    error. *)
Lemma branchLoop_facts (n : nat) (known : option (list (string * bool)))
    (branches : list branch) (u u' : bool)
    (acc acc' : list (string * jsval)) :
  foldM (branchStep n known) branches (u, acc) = ret (u', acc') ->
  (Obj.has acc EmptyString = true -> Obj.has acc' EmptyString = true)
  /\ (u = true -> u' = true)
  /\ (u' = false -> branches <> [] -> Obj.has acc' EmptyString = true)
  /\ (NoDup (Obj.keys acc) -> NoDup (Obj.keys acc'))
  /\ (forall q, In q (Obj.keys acc') ->
        In q (Obj.keys acc) \/ q = EmptyString
        \/ match known with
           | Some kn => In q (Obj.keys kn)
           | None => True
           end)
  /\ (forall p v, p <> EmptyString -> Obj.get acc p = Some v ->
        Obj.get acc' p = Some v)
  /\ (forall b idx, In b branches -> arrayIndices b = Some idx ->
        Obj.get acc' (pathFromIndices idx) = Some (value b))
  /\ (allIndexed branches = true -> Obj.has acc EmptyString = false ->
      Obj.has acc' EmptyString = false).
Proof.
  revert u acc; induction branches as [|b branches IH]; intros u acc H;
    simpl in H.
  - inversion H; subst. repeat split; auto; try contradiction.
  - apply bind_ret_inv in H as ([u1 acc1] & Hstep & H).
    destruct (IH _ _ H) as (I1 & I2 & I3 & I4 & I5 & I6 & I7 & I8).
    apply branchStep_ret_inv in Hstep.
    destruct (arrayIndices b) as [idx|] eqn:Hb.
    + destruct Hstep as (-> & Hnew & -> & Hkn).
      split; [intros Hh; apply I1; rewrite has_set, Hh; reflexivity|].
      split; [intros _; apply I2; reflexivity|].
      split; [intros Hu; rewrite (I2 eq_refl) in Hu; discriminate|].
      split; [intros Hnd; apply I4, NoDup_keys_set, Hnd|].
      split.
      { intros q Hq. destruct (I5 q Hq) as [Hq'|Hq']; [|auto].
        rewrite keys_set, Hnew in Hq'.
        apply in_app_or in Hq' as [Hq'|[<-|[]]]; [auto|].
        right; right. destruct known as [kn|]; [|exact I].
        apply has_true_keys; exact Hkn. }
      split.
      { intros p v Hp Hget. apply I6; [exact Hp|].
        rewrite get_set.
        destruct (String.eqb_spec (pathFromIndices idx) p) as [<-|]; auto.
        unfold Obj.has in Hnew. rewrite Hget in Hnew. discriminate. }
      split.
      { intros b' idx' [<-|Hin] Hidx.
        - rewrite Hb in Hidx; inversion Hidx; subst idx'.
          apply I6; [apply pathFromIndices_neq_empty|].
          rewrite get_set, String.eqb_refl. reflexivity.
        - eapply I7; eauto. }
      intros Hall Hacc. simpl in Hall. rewrite Hb in Hall.
      apply I8; [exact Hall|].
      rewrite has_set, Hacc, pathFromIndices_nonempty. reflexivity.
    + destruct Hstep as (-> & ->).
      assert (Hh : Obj.has (Obj.set acc EmptyString (value b)) EmptyString
                   = true)
        by (rewrite has_set; apply orb_true_r).
      split; [intros _; apply I1; exact Hh|].
      split; [exact I2|].
      split; [intros _ _; apply I1; exact Hh|].
      split; [intros Hnd; apply I4, NoDup_keys_set, Hnd|].
      split.
      { intros q Hq. destruct (I5 q Hq) as [Hq'|Hq']; [|auto].
        rewrite keys_set in Hq'. destruct (Obj.has acc EmptyString); [auto|].
        apply in_app_or in Hq' as [Hq'|[<-|[]]]; auto. }
      split.
      { intros p v Hp Hget. apply I6; [exact Hp|].
        rewrite get_set.
        destruct (String.eqb_spec EmptyString p); [congruence | exact Hget]. }
      split.
      { intros b' idx' [<-|Hin] Hidx; [congruence|]. eapply I7; eauto. }
      intros Hall. simpl in Hall. rewrite Hb in Hall. discriminate.
Qed.

Lemma branchesOf_not_nil `{E : Env} (part : specPart) (doc : jsval) :
  branchesOf part doc <> [].
Proof.
  unfold branchesOf.
  destruct (expandArraysInBranches (makeLookupFunction (path part) doc) true);
    simpl; discriminate.
Qed.

Lemma processBranches_ret_inv (vs vs' : list (list (string * jsval)))
    (known known' : option (list (string * bool))) (branches : list branch) :
  processBranches (vs, known) branches = ret (vs', known') ->
  exists u values,
    foldM (branchStep (List.length branches) known) branches (false, [])
    = ret (u, values)
    /\ vs' = vs ++ [values]
    /\ match known with
       | Some kn =>
           known' = known
           /\ (Obj.has values EmptyString = true
               \/ Obj.size kn = Obj.size values)
       | None =>
           known' = if u
                    then Some (map (fun kv => (fst kv, true)) values)
                    else None
       end.
Proof.
  unfold processBranches.
  destruct (foldM (branchStep (List.length branches) known) branches
                  (false, [])) as [[u values]|] eqn:Hloop; simpl;
    [|discriminate].
  destruct known as [kn|].
  - destruct (Obj.has values EmptyString) eqn:Hh; simpl.
    + intros H; inversion H; subst. exists u, values; auto.
    + destruct (Nat.eqb_spec (Obj.size kn) (Obj.size values)); simpl;
        [|discriminate].
      intros H; inversion H; subst. exists u, values; auto.
  - destruct u; intros H; inversion H; subst; eexists _, values; eauto.
Qed.

Lemma processBranches_cover (vs vs' : list (list (string * jsval)))
    (known known' : option (list (string * bool))) (branches : list branch) :
  branches <> [] ->
  processBranches (vs, known) branches = ret (vs', known') ->
  valuesCover vs known -> valuesCover vs' known'.
Proof.
  intros Hne H Hcov.
  apply processBranches_ret_inv in H as (u & values & Hloop & -> & Hk).
  apply branchLoop_facts in Hloop
    as (_ & _ & F3 & F4 & F5 & _ & _ & _).
  destruct known as [kn|].
  - destruct Hk as (-> & Hk). simpl in Hcov |- *.
    apply Forall_app; split; [exact Hcov|].
    constructor; [|constructor].
    destruct (Obj.has values EmptyString) eqn:Hh; [auto|]. right.
    destruct Hk as [Hk|Hk]; [discriminate|].
    assert (Hincl : incl (Obj.keys values) (Obj.keys kn)).
    { intros q Hq. destruct (F5 q Hq) as [[]|[->|Hq']]; [|exact Hq'].
      apply keys_has in Hq. congruence. }
    intros p Hp. apply keys_has.
    assert (Hnd : NoDup (Obj.keys values)) by (apply F4; constructor).
    assert (Hlen : (List.length (Obj.keys kn)
                    <= List.length (Obj.keys values))%nat).
    { unfold Obj.keys, Obj.size in *. rewrite !length_map. lia. }
    exact (NoDup_length_incl Hnd Hlen Hincl p Hp).
  - subst known'. simpl in Hcov. destruct u.
    + simpl. apply Forall_app; split.
      * eapply Forall_impl; [|exact Hcov]. auto.
      * constructor; [|constructor]. right. intros p Hp.
        apply keys_has. unfold Obj.keys in *.
        rewrite map_map in Hp. exact Hp.
    + simpl. apply Forall_app; split; [exact Hcov|].
      constructor; [|constructor]. apply F3; auto.
Qed.

Lemma mapM_ret {A B : Type} (f : A -> result B) (l : list A) :
  Forall (fun x => exists y, f x = ret y) l -> exists r, mapM f l = ret r.
Proof.
  induction 1 as [|x l [y Hy] _ [r Hr]]; simpl; [eauto|].
  rewrite Hy, Hr. simpl. eauto.
Qed.

Section Cover.
Context `{E : Env}.
Variable doc : jsval.

Lemma valuesAndPaths_cover_from (parts : list specPart)
    (vs0 vs : list (list (string * jsval)))
    (known0 known : option (list (string * bool))) :
  foldM (partStep doc) parts (vs0, known0) = ret (vs, known) ->
  valuesCover vs0 known0 -> valuesCover vs known.
Proof.
  revert vs0 known0; induction parts as [|p parts IH]; simpl;
    intros vs0 known0 H Hcov.
  - inversion H; subst; exact Hcov.
  - apply bind_ret_inv in H as ([vs1 known1] & Hp & H).
    apply (IH _ _ H).
    eapply processBranches_cover; [apply branchesOf_not_nil | exact Hp |].
    exact Hcov.
Qed.

Lemma valuesAndPaths_cover (parts : list specPart)
    (vs : list (list (string * jsval)))
    (known : option (list (string * bool))) :
  valuesAndPaths parts doc = ret (vs, known) -> valuesCover vs known.
Proof.
  intros H. eapply valuesAndPaths_cover_from; [exact H|]. constructor.
Qed.

(** Once the first loop has ended, every key can be built. *)
Lemma keySequence_all_ret (vs : list (list (string * jsval)))
    (known : option (list (string * bool))) :
  valuesCover vs known -> exists ks, keySequence vs known = map ret ks.
Proof.
  intros Hcov. destruct known as [kn|]; simpl in *.
  - assert (Hall : forall kv, In kv kn -> exists k, keyAt vs (fst kv) = ret k).
    { intros kv Hkv. apply mapM_ret.
      eapply Forall_impl; [|exact Hcov]. intros values [Hh|Hh]; simpl.
      - rewrite Hh. eauto.
      - destruct (Obj.has values EmptyString); [eauto|].
        rewrite (Hh (fst kv)); simpl; [eauto|].
        unfold Obj.keys. apply in_map. exact Hkv. }
    clear Hcov. induction kn as [|kv kn IH]; simpl; [exists []; reflexivity|].
    destruct (Hall kv (or_introl eq_refl)) as [k Hk].
    destruct IH as [ks Hks]; [intros; apply Hall; right; assumption|].
    exists (k :: ks). simpl. rewrite Hk, Hks. reflexivity.
  - assert (Hs : exists k, soleKey vs = ret k).
    { apply mapM_ret. eapply Forall_impl; [|exact Hcov].
      intros values Hh; simpl. rewrite Hh. simpl. eauto. }
    destruct Hs as [k Hk]. exists [k]. simpl. rewrite Hk. reflexivity.
Qed.

End Cover.

Lemma valuesAndPaths_branchError `{E : Env} (parts : list specPart)
    (doc : jsval) (e : error) :
  valuesAndPaths parts doc = throw e -> branchError e.
Proof.
  apply foldM_throws. intros st p e'. apply processBranches_branchError.
Qed.

Lemma keysOf_of_valuesAndPaths `{E : Env} (self : sorter) (doc : jsval)
    (vs : list (list (string * jsval)))
    (known : option (list (string * bool))) :
  _sortSpecParts self <> [] ->
  valuesAndPaths (_sortSpecParts self) doc = ret (vs, known) ->
  exists ks, keysOf self doc = ret ks.
Proof.
  intros Hne Hv.
  pose proof (valuesAndPaths_cover _ _ Hv) as Hcov.
  apply keySequence_all_ret in Hcov as [ks Hks].
  exists ks. unfold keysOf. rewrite _generateKeysFromDoc_unfold, Hv.
  destruct (_sortSpecParts self); [contradiction|]. simpl.
  rewrite Hks, feed_all_ret, collect_ret. reflexivity.
Qed.

(** X6. Key extraction fails only in its first loop: when a sorter has a
    part and the loop over the parts ends without an error, every
    candidate key is built, so "missing path?" and "no value in sole key
    case?" are never thrown; the only errors of key extraction are "can't
    generate keys without a spec" and the four errors of the loop over
    the branches. *)
Theorem key_extraction_errors :
  forall (E : Env) (self : sorter) (doc : jsval),
    (forall vs known,
        _sortSpecParts self <> [] ->
        valuesAndPaths (_sortSpecParts self) doc = ret (vs, known) ->
        exists ks, keysOf self doc = ret ks)
    /\ (forall e, keysOf self doc = throw e ->
          (e = NoSpec /\ _sortSpecParts self = []) \/ branchError e).
Proof.
  intros E self doc.
  split; [intros vs known; apply keysOf_of_valuesAndPaths|].
  intros e He.
  assert (Hcase : _sortSpecParts self = [] \/ _sortSpecParts self <> [])
    by (destruct (_sortSpecParts self); [left | right]; congruence).
  destruct Hcase as [Hparts|Hne].
  - left. unfold keysOf, _generateKeysFromDoc in He. rewrite Hparts in He.
    inversion He; auto.
  - right.
    destruct (valuesAndPaths (_sortSpecParts self) doc) as [[vs known]|e']
      eqn:Hv.
    + destruct (keysOf_of_valuesAndPaths self doc Hne Hv) as [ks Hks].
      rewrite Hks in He. discriminate.
    + unfold keysOf in He. rewrite _generateKeysFromDoc_unfold, Hv in He.
      destruct (_sortSpecParts self); [contradiction|].
      simpl in He. inversion He; subst.
      eapply valuesAndPaths_branchError; eauto.
Qed.

Lemma key_extraction_errors_witness :
  (exists ks, keysOf (E := E0) exSorter exDoc = ret ks)
  /\ branchError CannotIndexParallelArrays.
Proof.
  split.
  - refine (proj1 (key_extraction_errors E0 exSorter exDoc) _ _ _ eq_refl).
    discriminate.
  - destruct (proj2 (key_extraction_errors E0 parSorter parDoc)
                CannotIndexParallelArrays eq_refl) as [[H _]|H];
      [discriminate H | exact H].
Defined.

(** ** The document comparator *)

Lemma _getMinKeyFromDoc_cases `{E : Env} (self : sorter) (doc : jsval) :
  _sortSpecParts self <> [] ->
  match valuesAndPaths (_sortSpecParts self) doc with
  | ret _ => exists m, _getMinKeyFromDoc self doc = ret m
  | throw e => _getMinKeyFromDoc self doc = throw e /\ branchError e
  end.
Proof.
  intros Hne.
  destruct (valuesAndPaths (_sortSpecParts self) doc) as [[vs known]|e]
    eqn:Hv.
  - destruct (keysOf_of_valuesAndPaths self doc Hne Hv) as [ks Hks].
    pose proof (keysOf_nonempty _ _ Hks) as Hk.
    destruct ks as [|k ks]; [contradiction|].
    eexists. apply _getMinKeyFromDoc_keysOf. exact Hks.
  - split; [|eapply valuesAndPaths_branchError; eauto].
    unfold _getMinKeyFromDoc. rewrite _generateKeysFromDoc_unfold, Hv.
    destruct (_sortSpecParts self); [contradiction | reflexivity].
Qed.

Lemma _getBaseComparator_ret_inv `{E : Env} (self : sorter)
    (doc1 doc2 : jsval) (c : Z) :
  _sortSpecParts self <> [] ->
  _getBaseComparator self doc1 doc2 = ret c ->
  exists key1 key2,
    _getMinKeyFromDoc self doc1 = ret key1
    /\ _getMinKeyFromDoc self doc2 = ret key2
    /\ c = keyOrder self key1 key2.
Proof.
  intros Hne H. unfold _getBaseComparator in H.
  destruct (_sortSpecParts self) eqn:Hparts; [contradiction|].
  simpl in H.
  apply bind_ret_inv in H as (key1 & H1 & H).
  apply bind_ret_inv in H as (key2 & H2 & H).
  exists key1, key2. split; [exact H1|]. split; [exact H2|].
  rewrite _compareKeys_in_range in H.
  - inversion H; reflexivity.
  - apply _getMinKeyFromDoc_length in H1. exact H1.
  - apply _getMinKeyFromDoc_length in H2. exact H2.
Qed.

Lemma _getBaseComparator_of_keys `{E : Env} (self : sorter)
    (doc1 doc2 : jsval) (key1 key2 : key) :
  _sortSpecParts self <> [] ->
  _getMinKeyFromDoc self doc1 = ret key1 ->
  _getMinKeyFromDoc self doc2 = ret key2 ->
  _getBaseComparator self doc1 doc2 = ret (keyOrder self key1 key2).
Proof.
  intros Hne H1 H2. unfold _getBaseComparator.
  destruct (_sortSpecParts self) eqn:Hparts; [contradiction|].
  simpl. rewrite H1, H2. simpl. rewrite <- Hparts in *.
  apply _compareKeys_in_range; eapply _getMinKeyFromDoc_length; eauto.
Qed.

(** X7. The base comparator throws nothing but the four errors of the
    loop over the branches ("multiple branches but no array used?",
    "duplicate path", and the two "cannot index parallel arrays"): never
    "Key has wrong length", "sort selector found no keys in doc?",
    "missing path?" or a TypeError.  It returns a number as soon as the
    first loop of key extraction ends without an error on both
    documents. *)
Theorem base_comparator_errors :
  forall (E : Env) (self : sorter) (doc1 doc2 : jsval),
    (forall e, _getBaseComparator self doc1 doc2 = throw e -> branchError e)
    /\ (forall st1 st2,
          valuesAndPaths (_sortSpecParts self) doc1 = ret st1 ->
          valuesAndPaths (_sortSpecParts self) doc2 = ret st2 ->
          exists c, _getBaseComparator self doc1 doc2 = ret c).
Proof.
  intros E self doc1 doc2.
  assert (Hcase : _sortSpecParts self = [] \/ _sortSpecParts self <> [])
    by (destruct (_sortSpecParts self); [left | right]; congruence).
  destruct Hcase as [Hparts|Hne].
  - unfold _getBaseComparator. rewrite Hparts. simpl.
    split; [discriminate | eauto].
  - pose proof (_getMinKeyFromDoc_cases self doc1 Hne) as H1.
    pose proof (_getMinKeyFromDoc_cases self doc2 Hne) as H2.
    split.
    + intros e He. unfold _getBaseComparator in He.
      destruct (List.length (_sortSpecParts self) =? 0)%nat; [discriminate|].
      destruct (valuesAndPaths (_sortSpecParts self) doc1) as [st1|e1].
      * destruct H1 as [key1 H1]. rewrite H1 in He. simpl in He.
        destruct (valuesAndPaths (_sortSpecParts self) doc2) as [st2|e2].
        -- destruct H2 as [key2 H2]. rewrite H2 in He. simpl in He.
           rewrite _compareKeys_in_range in He;
             [discriminate | eapply _getMinKeyFromDoc_length; eauto ..].
        -- destruct H2 as [H2 Hb]. rewrite H2 in He. simpl in He.
           inversion He; subst; exact Hb.
      * destruct H1 as [H1 Hb]. rewrite H1 in He. simpl in He.
        inversion He; subst; exact Hb.
    + intros st1 st2 Hv1 Hv2. rewrite Hv1 in H1. rewrite Hv2 in H2.
      destruct H1 as [key1 H1]. destruct H2 as [key2 H2].
      eexists. apply _getBaseComparator_of_keys; eauto.
Qed.

Lemma base_comparator_errors_witness :
  branchError CannotIndexParallelArrays
  /\ exists c, _getBaseComparator (E := E0) exSorter exDoc exDoc = ret c.
Proof.
  split.
  - exact (proj1 (base_comparator_errors E0 parSorter parDoc parDoc)
                 CannotIndexParallelArrays eq_refl).
  - exact (proj2 (base_comparator_errors E0 exSorter exDoc exDoc)
                 _ _ eq_refl eq_refl).
Defined.

(** X8. When the value comparator is an order, so is the base comparator
    on the documents it can compare: a document compares equal to
    itself, swapping the two documents swaps the sign of the result, and
    the comparison is transitive. *)
Theorem base_comparator_order :
  forall (E : Env) (self : sorter) (Hord : isOrder _cmp)
         (doc1 doc2 doc3 : jsval) (c12 c23 : Z)
         (H12 : _getBaseComparator self doc1 doc2 = ret c12)
         (H23 : _getBaseComparator self doc2 doc3 = ret c23),
    _getBaseComparator self doc1 doc1 = ret 0
    /\ (exists c21,
          _getBaseComparator self doc2 doc1 = ret c21
          /\ (c12 < 0 <-> 0 < c21) /\ (c12 = 0 <-> c21 = 0))
    /\ (exists c13,
          _getBaseComparator self doc1 doc3 = ret c13
          /\ (c12 <= 0 -> c23 <= 0 -> c13 <= 0)).
Proof.
  intros E self Hord doc1 doc2 doc3 c12 c23 H12 H23.
  assert (Hcase : _sortSpecParts self = [] \/ _sortSpecParts self <> [])
    by (destruct (_sortSpecParts self); [left | right]; congruence).
  destruct Hcase as [Hparts|Hne].
  - unfold _getBaseComparator in *. rewrite Hparts in *. simpl in *.
    inversion H12; inversion H23; subst.
    split; [reflexivity|]. split; exists 0; split; auto; lia.
  - apply _getBaseComparator_ret_inv in H12 as (k1 & k2 & M1 & M2 & ->);
      [|exact Hne].
    apply _getBaseComparator_ret_inv in H23 as (k2' & k3 & M2' & M3 & ->);
      [|exact Hne].
    rewrite M2 in M2'. inversion M2'; subst k2'.
    destruct (keyOrder_isOrder self Hord) as [Hanti Htr].
    split; [|split].
    + rewrite (_getBaseComparator_of_keys self doc1 doc1 Hne M1 M1).
      rewrite (isOrder_refl _ (keyOrder_isOrder self Hord)). reflexivity.
    + exists (keyOrder self k2 k1).
      split; [apply _getBaseComparator_of_keys; auto|].
      pose proof (Hanti k1 k2); pose proof (Hanti k2 k1). lia.
    + exists (keyOrder self k1 k3).
      split; [apply _getBaseComparator_of_keys; auto|].
      apply Htr.
Qed.

Lemma base_comparator_order_witness :
  _getBaseComparator (E := E0) abSorter
    (JObj [("a", JNum 1)]) (JObj [("a", JNum 1)]) = ret 0
  /\ exists c13,
       _getBaseComparator (E := E0) abSorter
         (JObj [("a", JNum 1)]) (JObj [("a", JNum 3)]) = ret c13
       /\ (-1 <= 0 -> -1 <= 0 -> c13 <= 0).
Proof.
  pose proof (@base_comparator_order E0 abSorter SpecEnv_cmp_isOrder
                (JObj [("a", JNum 1)]) (JObj [("a", JNum 2)])
                (JObj [("a", JNum 3)]) (-1) (-1) eq_refl eq_refl)
    as (H1 & _ & H3).
  exact (conj H1 H3).
Defined.

(** ** Candidate keys are rows *)



(** The values recorded for a part by a loop that ended without an
    error: an unindexed branch is alone and is recorded under the empty
    path; indexed branches are recorded under their paths, and nothing is
    recorded under the empty path. *)
Lemma branchLoop_values (known : option (list (string * bool)))
    (branches : list branch) (u : bool) (values : list (string * jsval))
    (b : branch) :
  foldM (branchStep (List.length branches) known) branches (false, [])
  = ret (u, values) ->
  In b branches ->
  match arrayIndices b with
  | None => values = [(EmptyString, value b)]
  | Some idx =>
      Obj.has values EmptyString = false
      /\ Obj.get values (pathFromIndices idx) = Some (value b)
  end.
Proof.
  intros Hloop Hb.
  pose proof (branchLoop_ret_inv _ _ _ _ Hloop) as (Hall & _ & _).
  assert (Hone : forall b0, In b0 branches -> arrayIndices b0 = None ->
                            branches = [b0]).
  { intros b0 Hb0 Hnone.
    destruct Hall as [Hlen|Hall].
    - destruct branches as [|b1 [|b2 branches]].
      + destruct Hb0.
      + destruct Hb0 as [->|[]]. reflexivity.
      + simpl in Hlen. lia.
    - unfold allIndexed in Hall. rewrite forallb_forall in Hall.
      specialize (Hall _ Hb0). rewrite Hnone in Hall. discriminate. }
  destruct (arrayIndices b) as [idx|] eqn:Hidx.
  - assert (Hall' : allIndexed branches = true).
    { unfold allIndexed. apply forallb_forall. intros b0 Hb0.
      destruct (arrayIndices b0) eqn:H0; [reflexivity|].
      rewrite (Hone b0 Hb0 H0) in Hb. destruct Hb as [<-|[]]. congruence. }
    apply branchLoop_facts in Hloop as (_ & _ & _ & _ & _ & _ & F7 & F8).
    split; [apply F8; auto | eapply F7; eauto].
  - rewrite (Hone b Hb Hidx) in Hloop. simpl in Hloop.
    unfold branchStep in Hloop. rewrite Hidx in Hloop. simpl in Hloop.
    inversion Hloop. reflexivity.
Qed.



(** ** Documents without arrays *)

Lemma processBranches_sole (vs : list (list (string * jsval)))
    (known : option (list (string * bool))) (v : jsval) :
  processBranches (vs, known) [Branch v None]
  = ret (vs ++ [[(EmptyString, v)]], known).
Proof.
  destruct known; reflexivity.
Qed.

Lemma map_seq_nth_error {A B : Type} (l : list A) (h : nat -> B)
    (g : A -> B) :
  (forall i x, nth_error l i = Some x -> h i = g x) ->
  map h (seq 0 (List.length l)) = map g l.
Proof.
  revert h; induction l as [|a l IH]; intros h Hh; simpl; [reflexivity|].
  rewrite (Hh 0%nat a eq_refl). f_equal.
  rewrite <- seq_shift, map_map. apply IH.
  intros i x Hi. apply (Hh (Datatypes.S i)). exact Hi.
Qed.

Section Plain.
Context `{E : Env}.
Variables (doc : jsval) (f : specPart -> jsval).

Lemma valuesAndPaths_plain (parts : list specPart)
    (vs0 : list (list (string * jsval))) :
  (forall part, In part parts -> branchesOf part doc = [Branch (f part) None]) ->
  foldM (partStep doc) parts (vs0, None)
  = ret (vs0 ++ map (fun part => [(EmptyString, f part)]) parts, None).
Proof.
  revert vs0; induction parts as [|p parts IH]; intros vs0 Hall; simpl.
  - rewrite app_nil_r. reflexivity.
  - unfold partStep at 1. rewrite (Hall p (or_introl eq_refl)).
    rewrite processBranches_sole. simpl.
    rewrite IH by (intros; apply Hall; right; assumption).
    rewrite <- app_assoc. reflexivity.
Qed.

Lemma soleKey_plain (parts : list specPart) :
  soleKey (map (fun part => [(EmptyString, f part)]) parts)
  = ret (map f parts).
Proof.
  unfold soleKey. induction parts as [|p parts IH]; simpl; [reflexivity|].
  rewrite IH. reflexivity.
Qed.

Lemma _getMinKeyFromDoc_plain (self : sorter) :
  _sortSpecParts self <> [] ->
  (forall part, In part (_sortSpecParts self) ->
     branchesOf part doc = [Branch (f part) None]) ->
  keysOf self doc = ret [map f (_sortSpecParts self)]
  /\ _getMinKeyFromDoc self doc = ret (map f (_sortSpecParts self)).
Proof.
  intros Hne Hall.
  assert (Hk : keysOf self doc = ret [map f (_sortSpecParts self)]).
  { unfold keysOf, _generateKeysFromDoc, valuesAndPaths.
    rewrite (valuesAndPaths_plain _ [] Hall). simpl.
    destruct (_sortSpecParts self); [contradiction|].
    cbn [List.length Nat.eqb]. rewrite soleKey_plain. reflexivity. }
  split; [exact Hk|].
  rewrite (_getMinKeyFromDoc_keysOf _ _ Hk). reflexivity.
Qed.

End Plain.

Lemma keyOrder_plain `{E : Env} (self : sorter) (f1 f2 : specPart -> jsval) :
  keyOrder self (map f1 (_sortSpecParts self)) (map f2 (_sortSpecParts self))
  = firstNonZero
      (map (fun part => signed part (_cmp (f1 part) (f2 part)))
           (_sortSpecParts self)).
Proof.
  unfold keyOrder. f_equal. apply map_seq_nth_error.
  intros i part Hi. unfold fieldResult, signed. rewrite Hi.
  rewrite (nth_error_nth _ _ JUndefined (map_nth_error f1 _ _ Hi)).
  rewrite (nth_error_nth _ _ JUndefined (map_nth_error f2 _ _ Hi)).
  reflexivity.
Qed.

(** X10. Two documents in which every part of the sorter has a single
    branch without array indices have one candidate key each, the values
    of the parts in spec order, and the base comparator compares them
    field by field: its result is the first non-zero among the value
    comparator's results on the two values of each part, negated for the
    descending parts. *)
Theorem plain_documents_compare_by_field :
  forall (E : Env) (self : sorter) (doc1 doc2 : jsval)
         (f1 f2 : specPart -> jsval)
         (Hne : _sortSpecParts self <> [])
         (H1 : forall part, In part (_sortSpecParts self) ->
                 branchesOf part doc1 = [Branch (f1 part) None])
         (H2 : forall part, In part (_sortSpecParts self) ->
                 branchesOf part doc2 = [Branch (f2 part) None]),
    keysOf self doc1 = ret [map f1 (_sortSpecParts self)]
    /\ _getBaseComparator self doc1 doc2
       = ret (firstNonZero
                (map (fun part => signed part (_cmp (f1 part) (f2 part)))
                     (_sortSpecParts self))).
Proof.
  intros E self doc1 doc2 f1 f2 Hne H1 H2.
  destruct (_getMinKeyFromDoc_plain doc1 f1 self Hne H1) as (Hk1 & M1).
  destruct (_getMinKeyFromDoc_plain doc2 f2 self Hne H2) as (_ & M2).
  split; [exact Hk1|].
  rewrite (_getBaseComparator_of_keys self doc1 doc2 Hne M1 M2).
  rewrite keyOrder_plain. reflexivity.
Qed.

Lemma plain_documents_compare_by_field_witness :
  _getBaseComparator (E := E0) abSorter
    (JObj [("a", JNum 1); ("b", JNum 2)]) (JObj [("a", JNum 1); ("b", JNum 7)])
  = ret (firstNonZero [1 - 1; - (2 - 7)]).
Proof.
  refine (proj2 (@plain_documents_compare_by_field E0 abSorter
            (JObj [("a", JNum 1); ("b", JNum 2)])
            (JObj [("a", JNum 1); ("b", JNum 7)])
            (fun part => if String.eqb (path part) "a" then JNum 1 else JNum 2)
            (fun part => if String.eqb (path part) "a" then JNum 1 else JNum 7)
            _ _ _)).
  - discriminate.
  - intros part [<-|[<-|[]]]; reflexivity.
  - intros part [<-|[<-|[]]]; reflexivity.
Defined.

(** ** The number of candidate keys *)

Lemma branchLoop_size (n : nat) (known : option (list (string * bool)))
    (branches : list branch) (u u' : bool)
    (acc acc' : list (string * jsval)) :
  allIndexed branches = true ->
  foldM (branchStep n known) branches (u, acc) = ret (u', acc') ->
  Obj.size acc' = (Obj.size acc + List.length branches)%nat.
Proof.
  revert u acc; induction branches as [|b branches IH]; intros u acc Hall H;
    simpl in H.
  - inversion H; subst. simpl. lia.
  - apply bind_ret_inv in H as ([u1 acc1] & Hstep & H).
    simpl in Hall. apply branchStep_ret_inv in Hstep.
    destruct (arrayIndices b) as [idx|]; [|discriminate].
    destruct Hstep as (-> & Hnew & -> & _).
    rewrite (IH _ _ Hall H), (has_false_set _ _ _ Hnew).
    unfold Obj.size. rewrite length_app. simpl. lia.
Qed.

Lemma partLoop_known_some `{E : Env} (doc : jsval) (parts : list specPart)
    (vs0 vs : list (list (string * jsval))) (k0 : list (string * bool))
    (known : option (list (string * bool))) :
  foldM (partStep doc) parts (vs0, Some k0) = ret (vs, known) ->
  known = Some k0.
Proof.
  revert vs0; induction parts as [|p parts IH]; simpl; intros vs0 H.
  - inversion H; reflexivity.
  - apply bind_ret_inv in H as ([vs1 known1] & Hp & H).
    unfold partStep in Hp.
    apply processBranches_ret_inv in Hp as (_ & _ & _ & _ & (-> & _)).
    eapply IH; eauto.
Qed.

(** X11. A document has as many candidate keys as any part that goes
    through an array has branches: when key extraction succeeds and some
    branch of a part carries array indices, the number of candidate keys
    is the number of branches of that part. *)
Theorem candidate_key_count :
  forall (E : Env) (self : sorter) (doc : jsval) (ks : list key) (i : nat)
         (part : specPart) (b : branch) (idx : list nat)
         (Hks : keysOf self doc = ret ks)
         (Hi : nth_error (_sortSpecParts self) i = Some part)
         (Hb : In b (branchesOf part doc))
         (Hidx : arrayIndices b = Some idx),
    List.length ks = List.length (branchesOf part doc).
Proof.
  intros E self doc ks i part b idx Hks Hi Hb Hidx.
  destruct (keysOf_shape _ _ Hks) as (vs & known & Hv & Hshape).
  destruct (nth_error_split _ _ Hi) as (pre & post & Hparts & Hlen).
  pose proof Hv as Hv'. unfold valuesAndPaths in Hv'.
  rewrite Hparts, foldM_app in Hv'.
  apply bind_ret_inv in Hv' as ([vs1 known1] & Hpre & Hrest).
  simpl in Hrest. apply bind_ret_inv in Hrest as ([vs2 known2] & Hp & Hrest).
  unfold partStep in Hp.
  apply processBranches_ret_inv in Hp as (u & values & Hloop & -> & Hk).
  pose proof (branchLoop_values _ _ _ Hloop Hb) as Hvals.
  rewrite Hidx in Hvals. destruct Hvals as (Hempty & _).
  assert (Hall : allIndexed (branchesOf part doc) = true).
  { pose proof (branchLoop_ret_inv _ _ _ _ Hloop) as ([Hl|Hall] & _ & _);
      [|exact Hall].
    destruct (branchesOf part doc) as [|b1 [|b2 l]]; simpl in *;
      [contradiction | | lia].
    destruct Hb as [->|[]]. rewrite Hidx. reflexivity. }
  assert (Hsize : Obj.size values = List.length (branchesOf part doc))
    by (apply (@branchLoop_size _ _ _ _ _ _ _ Hall Hloop)).
  assert (Hknown2 : exists k2, known2 = Some k2
                               /\ List.length k2
                                  = List.length (branchesOf part doc)).
  { destruct known1 as [kn|].
    - destruct Hk as (-> & [Hk|Hk]); [congruence|].
      exists kn. split; [reflexivity|]. unfold Obj.size in *. lia.
    - apply branchLoop_facts in Hloop as (_ & _ & F3 & _).
      destruct u.
      + subst known2. eexists; split; [reflexivity|].
        rewrite length_map. exact Hsize.
      + rewrite F3 in Hempty; [discriminate | reflexivity |].
        intros Hnil. rewrite Hnil in Hb. destruct Hb. }
  destruct Hknown2 as (k2 & -> & Hlen2).
  apply partLoop_known_some in Hrest. subst known.
  destruct Hshape as (_ & Hmap).
  apply (f_equal (@List.length _)) in Hmap. rewrite !length_map in Hmap.
  lia.
Qed.

Lemma candidate_key_count_witness :
  List.length [[JNum 0; JNum 5]; [JNum 1; JNum 3]]
  = List.length (branchesOf (E := E0) (SpecPart "a.y" true) exDoc).
Proof.
  exact (@candidate_key_count E0 exSorter exDoc
           [[JNum 0; JNum 5]; [JNum 1; JNum 3]] 1%nat (SpecPart "a.y" true)
           (Branch (JNum 3) (Some [1%nat])) [1%nat]
           eq_refl eq_refl (or_intror (or_introl eq_refl)) eq_refl).
Defined.

(** ** The comparator with distances *)

Lemma distanceComparator_ret_inv (dist : distanceMap) (a b : jsval) (c : Z) :
  distanceComparator dist a b = ret c ->
  exists ida idb da db,
    _id a = ret ida /\ _id b = ret idb
    /\ dist ida = Some da /\ dist idb = Some db /\ c = da - db.
Proof.
  unfold distanceComparator. intros H.
  apply bind_ret_inv in H as (ida & Ha & H).
  destruct (dist ida) as [da|] eqn:Hda; [|discriminate].
  apply bind_ret_inv in H as (idb & Hb & H).
  destruct (dist idb) as [db|] eqn:Hdb; [|discriminate].
  inversion H. exists ida, idb, da, db. auto.
Qed.

Lemma distanceComparator_of (dist : distanceMap) (a b ida idb : jsval)
    (da db : Z) :
  _id a = ret ida -> _id b = ret idb ->
  dist ida = Some da -> dist idb = Some db ->
  distanceComparator dist a b = ret (da - db).
Proof.
  intros Ha Hb Hda Hdb. unfold distanceComparator.
  rewrite Ha; simpl. rewrite Hda, Hb; simpl. rewrite Hdb. reflexivity.
Qed.

Lemma _getBaseComparator_keys `{E : Env} (self : sorter)
    (doc1 doc2 : jsval) (c : Z) :
  _getBaseComparator self doc1 doc2 = ret c ->
  (_sortSpecParts self = [] /\ c = 0)
  \/ (_sortSpecParts self <> []
      /\ exists key1 key2,
           _getMinKeyFromDoc self doc1 = ret key1
           /\ _getMinKeyFromDoc self doc2 = ret key2
           /\ c = keyOrder self key1 key2).
Proof.
  intros H.
  assert (Hcase : _sortSpecParts self = [] \/ _sortSpecParts self <> [])
    by (destruct (_sortSpecParts self); [left | right]; congruence).
  destruct Hcase as [Hparts|Hne].
  - left. unfold _getBaseComparator in H. rewrite Hparts in H.
    inversion H; auto.
  - right. split; [exact Hne|].
    apply _getBaseComparator_ret_inv; assumption.
Qed.

(** X12. When the value comparator is an order, the comparator with
    distances is an order on the documents it can compare: swapping the
    two documents swaps the sign of the result, and when the first
    document is not after the second, nor the second after the third, the
    first and the third can be compared and the first is not after the
    third. *)
Theorem comparator_with_distances_order :
  forall (E : Env) (self : sorter) (dist : distanceMap)
         (Hord : isOrder _cmp) (doc1 doc2 doc3 : jsval) (c12 c23 : Z),
    let cmp := getComparator self (Some (Options (Some dist))) in
    forall (H12 : cmp doc1 doc2 = ret c12) (H23 : cmp doc2 doc3 = ret c23),
      (exists c21,
         cmp doc2 doc1 = ret c21
         /\ (c12 < 0 <-> 0 < c21) /\ (c12 = 0 <-> c21 = 0))
      /\ (c12 <= 0 -> c23 <= 0 ->
          exists c13, cmp doc1 doc3 = ret c13 /\ c13 <= 0).
Proof.
  intros E self dist Hord doc1 doc2 doc3 c12 c23 cmp H12 H23. subst cmp.
  rewrite getComparator_distances in H12, H23.
  rewrite !getComparator_distances.
  apply bind_ret_inv in H12 as (b12 & B12 & H12).
  apply bind_ret_inv in H23 as (b23 & B23 & H23).
  assert (Hbase : exists f : jsval -> jsval -> Z,
            isOrder f
            /\ forall x y, In x [doc1; doc2; doc3] -> In y [doc1; doc2; doc3] ->
                 _getBaseComparator self x y = ret (f x y)).
  { apply _getBaseComparator_keys in B12 as [(Hp & _)|(Hne & k1 & k2 & M1 & M2 & _)].
    - exists (fun _ _ => 0). split; [split; intros; lia|].
      intros x y _ _. unfold _getBaseComparator. rewrite Hp. reflexivity.
    - apply _getBaseComparator_keys in B23
        as [(Hp & _)|(_ & k2' & k3 & _ & M3 & _)]; [contradiction|].
      set (km := fun d : jsval =>
                   match _getMinKeyFromDoc self d with
                   | ret k => k
                   | throw _ => []
                   end).
      exists (fun x y => keyOrder self (km x) (km y)).
      split; [apply (@isOrder_on _ _ (keyOrder self) km);
              apply keyOrder_isOrder; exact Hord|].
      intros x y Hx Hy.
      assert (Hkm : forall d, In d [doc1; doc2; doc3] ->
                      _getMinKeyFromDoc self d = ret (km d)).
      { intros d [<-|[<-|[<-|[]]]]; unfold km.
        - rewrite M1; reflexivity.
        - rewrite M2; reflexivity.
        - rewrite M3; reflexivity. }
      apply _getBaseComparator_of_keys; auto. }
  destruct Hbase as (f & [Hanti Htr] & Hf).
  assert (I1 : In doc1 [doc1; doc2; doc3]) by (simpl; auto).
  assert (I2 : In doc2 [doc1; doc2; doc3]) by (simpl; auto).
  assert (I3 : In doc3 [doc1; doc2; doc3]) by (simpl; auto).
  rewrite (Hf _ _ I1 I2) in B12. inversion B12; subst b12.
  rewrite (Hf _ _ I2 I3) in B23. inversion B23; subst b23.
  rewrite (Hf _ _ I2 I1), (Hf _ _ I1 I3). simpl.
  pose proof (Hanti doc1 doc2); pose proof (Hanti doc2 doc1);
  pose proof (Hanti doc2 doc3); pose proof (Hanti doc3 doc2);
  pose proof (Hanti doc1 doc3); pose proof (Hanti doc3 doc1);
  pose proof (Htr doc1 doc2 doc3); pose proof (Htr doc2 doc3 doc1);
  pose proof (Htr doc3 doc1 doc2); pose proof (Htr doc1 doc3 doc2);
  pose proof (Htr doc3 doc2 doc1); pose proof (Htr doc2 doc1 doc3).
  split.
  - destruct (Z.eqb_spec (f doc1 doc2) 0) as [Hz|Hz].
    + apply distanceComparator_ret_inv in H12
        as (i1 & i2 & d1 & d2 & A1 & A2 & D1 & D2 & ->).
      destruct (Z.eqb_spec (f doc2 doc1) 0); [|lia].
      rewrite (distanceComparator_of dist doc2 doc1 A2 A1 D2 D1).
      eexists; split; [reflexivity|]. lia.
    + inversion H12; subst c12.
      destruct (Z.eqb_spec (f doc2 doc1) 0); [lia|].
      eexists; split; [reflexivity|]. lia.
  - intros L12 L23.
    destruct (Z.eqb_spec (f doc1 doc2) 0) as [Hz12|Hz12];
      destruct (Z.eqb_spec (f doc2 doc3) 0) as [Hz23|Hz23];
      destruct (Z.eqb_spec (f doc1 doc3) 0) as [Hz13|Hz13];
      try (inversion H12; subst c12); try (inversion H23; subst c23);
      try (eexists; split; [reflexivity|]; lia); try lia.
    apply distanceComparator_ret_inv in H12
      as (i1 & i2 & d1 & d2 & A1 & A2 & D1 & D2 & ->).
    apply distanceComparator_ret_inv in H23
      as (i2' & i3 & d2' & d3 & A2' & A3 & D2' & D3 & ->).
    rewrite A2 in A2'. inversion A2'; subst i2'.
    rewrite D2 in D2'. inversion D2'; subst d2'.
    rewrite (distanceComparator_of dist doc1 doc3 A1 A3 D1 D3).
    eexists; split; [reflexivity|]. lia.
Qed.

Lemma comparator_with_distances_order_witness :
  exists c21,
    getComparator (E := E0) (MkSorter []) (Some (Options (Some exDistances)))
      docY docX = ret c21
    /\ (1 - 5 < 0 <-> 0 < c21) /\ (1 - 5 = 0 <-> c21 = 0).
Proof.
  exact (proj1 (@comparator_with_distances_order E0 (MkSorter []) exDistances
                  SpecEnv_cmp_isOrder docX docY docY (1 - 5) (5 - 5)
                  eq_refl eq_refl)).
Defined.

(** ** The compiled parts *)

Lemma specLoop_parts {A : Type}
    (step : list specPart -> A -> result (list specPart))
    (partsOf : A -> list specPart) (l : list A) (parts : list specPart) :
  (forall parts x, In x l -> step parts x = ret (parts ++ partsOf x)) ->
  foldM step l parts = ret (parts ++ flat_map partsOf l).
Proof.
  revert parts; induction l as [|x l IH]; intros parts Hstep; simpl.
  - rewrite app_nil_r. reflexivity.
  - rewrite (Hstep parts x (or_introl eq_refl)). simpl.
    rewrite IH by (intros; apply Hstep; right; assumption).
    rewrite <- app_assoc. reflexivity.
Qed.

(** X13. A specification of an accepted shape whose paths are all
    non-empty and do not begin with [$] compiles to exactly one part for
    each entry, in the order of the specification: for a mapping, the
    key with the direction "ascending exactly when value >= 0"; for a
    sequence, the bare string ascending, and the pair's path descending
    exactly when its direction is the string "desc". *)
Theorem Sorter_compiles_in_order :
  forall (E : Env) (spec : jsval)
         (Hshape : acceptedShape spec = true)
         (Hpaths : existsb badPath (specPaths spec) = false),
    Sorter spec
    = ret (MkSorter
             (match spec with
              | JArr elems => flat_map partOfElem elems
              | _ => map partOfEntry (_each_entries spec)
              end)).
Proof.
  intros E spec Hshape Hpaths. unfold Sorter.
  destruct spec as [| | | | | elems | props]; simpl in *; try discriminate.
  - rewrite (specLoop_parts arraySpecStep partOfElem); [reflexivity|].
    intros parts x Hx.
    rewrite forallb_forall in Hshape. specialize (Hshape x Hx).
    assert (Hgood : forall p, In p (elemPath x) -> badPath p = false).
    { intros p Hp. destruct (badPath p) eqn:Hb; [|reflexivity].
      assert (Hex : existsb badPath (flat_map elemPath elems) = true).
      { apply existsb_exists. exists p. split; [|exact Hb].
        apply in_flat_map. eauto. }
      congruence. }
    destruct x as [| | | | p | l | ]; simpl in Hshape; try discriminate.
    + unfold arraySpecStep; simpl.
      apply addSpecPart_good. apply Hgood. simpl; auto.
    + destruct l as [|[| | | | p | |] [|d [|]]]; try discriminate.
      unfold arraySpecStep; simpl.
      apply addSpecPart_good. apply Hgood. simpl; auto.
  - rewrite (specLoop_parts objectSpecStep (fun kv => [partOfEntry kv])).
    + simpl.
      replace (flat_map (fun kv => [partOfEntry kv]) props)
        with (map partOfEntry props); [reflexivity|].
      clear. induction props as [|kv props IH]; simpl; [reflexivity|].
      rewrite IH. reflexivity.
    + intros parts [k v] Hx. simpl.
      apply addSpecPart_good.
      destruct (badPath k) eqn:Hb; [|reflexivity].
      assert (Hex : existsb badPath (map fst props) = true).
      { apply existsb_exists. exists k. split; [|exact Hb].
        apply in_map_iff. exists (k, v). auto. }
      congruence.
Qed.

Lemma Sorter_compiles_in_order_witness :
  Sorter (E := E0) specMixed
  = ret (MkSorter (flat_map partOfElem
                     [JStr "a"; JArr [JStr "b"; JStr "desc"]])).
Proof.
  exact (Sorter_compiles_in_order E0 specMixed eq_refl eq_refl).
Defined.
